(** * Bond pricer: a shallow embedding of [bond_pricer.c]

    The program reads five command-line arguments, validates them
    ([parse_arguments]), computes price, durations, convexity and DV01 of a
    fixed-coupon bond in one pass over the payment dates
    ([calculate_bond_metrics]) and prints a report.

    The calculator is written once, over an interface of the arithmetic the C
    code performs on [double] and [int] values, and is read in two ways:
    - over [R], exact arithmetic, in which the pricing identities hold and
      are proved for every input of the precondition domain (rounding is not
      part of this reading);
    - over [PrimFloat.float], IEEE 754 binary64 with every operation
      rounded on its own, the arithmetic of the compiled program, in which
      concrete runs are evaluated and in which rounding and the exceptional
      values (NaN, infinities, underflow to zero) exist.

    The validation of the command line compares [double]s, so it is modelled
    in binary64 only.  [strtod] and [strtol] belong to the C library and are
    parameters of the model.

    Part I holds the definitions, Part II the lemmas and theorems on the
    documented properties, Part III further properties of the code. *)

From Stdlib Require Import ZArith Reals Lra Lia List String Bool.
From Stdlib Require Import Floats Uint63.
Import ListNotations.

Set Implicit Arguments.
Set Warnings "-inexact-float".

(** * Part I: definitions *)

(** ** Machine integers

    [int] is a 32-bit two's complement integer.  Products and sums of [int]s
    are reduced into the representable range. *)

Definition INT_MIN : Z := - 2 ^ 31.
Definition INT_MAX : Z := 2 ^ 31 - 1.

Definition int_wrap (z : Z) : Z := ((z + 2 ^ 31) mod 2 ^ 32 - 2 ^ 31)%Z.
Definition int_add (a b : Z) : Z := int_wrap (a + b).
Definition int_mul (a b : Z) : Z := int_wrap (a * b).

(** The cast [(int)] of a [long]. *)
Definition int_of_long (z : Z) : Z := int_wrap z.

(** The largest payment count the validated inputs allow: 100 years of
    monthly payments. *)
Definition MAX_PAYMENTS : Z := 1200.

(** ** The arithmetic of [double]

    The operations the calculator applies to [double] values: conversion of
    an [int], addition, multiplication and division.  The literals [0.0],
    [1.0] and [10000.0] are the conversions of 0, 1 and 10000. *)

Class DoubleArith (D : Type) : Type := {
  of_int : Z -> D;
  dadd : D -> D -> D;
  dmul : D -> D -> D;
  ddiv : D -> D -> D
}.

(** Exact real arithmetic. *)
#[export] Instance R_arith : DoubleArith R := {
  of_int := IZR;
  dadd := Rplus;
  dmul := Rmult;
  ddiv := Rdiv
}.

(** IEEE 754 binary64.  An [int] converts exactly. *)
Definition float_of_int (z : Z) : float :=
  if (z <? 0)%Z
  then PrimFloat.opp (PrimFloat.of_uint63 (Uint63.of_Z (- z)))
  else PrimFloat.of_uint63 (Uint63.of_Z z).

#[export] Instance binary64_arith : DoubleArith float := {
  of_int := float_of_int;
  dadd := PrimFloat.add;
  dmul := PrimFloat.mul;
  ddiv := PrimFloat.div
}.

(** ** Data model *)

Record BondParams (D : Type) : Type := {
  face_value : D;
  coupon_rate : D;
  ytm : D;
  periods : Z;
  frequency : Z
}.

Record BondMetrics (D : Type) : Type := {
  price : D;
  macaulay_duration : D;
  modified_duration : D;
  convexity : D;
  dv01 : D;
  yield_to_maturity : D
}.

(** ** [calculate_bond_metrics] *)

Section Calculator.

Context {D : Type} {arith : DoubleArith D}.

Local Infix "+." := dadd (at level 50, left associativity).
Local Infix "*." := dmul (at level 40, left associativity).
Local Infix "/." := ddiv (at level 40, left associativity).

(** The variables the loop updates: the three accumulators and the running
    discount factor. *)
Record Accumulators : Type := {
  acc_price : D;
  acc_weighted_pv : D;
  acc_convexity_sum : D;
  acc_pv_factor : D
}.

(** One execution of the loop body, at payment date [t]. *)
Definition loop_body (fv coupon_pmt discount : D) (n t : Z)
    (s : Accumulators) : Accumulators :=
  let cf := if (t =? n)%Z then coupon_pmt +. fv else coupon_pmt in
  let pv := cf *. acc_pv_factor s in
  {| acc_price := acc_price s +. pv;
     acc_weighted_pv := acc_weighted_pv s +. of_int t *. pv;
     acc_convexity_sum :=
       acc_convexity_sum s +. of_int (int_mul t (int_add t 1)) *. pv;
     acc_pv_factor := acc_pv_factor s *. discount |}.

(** [for (int t = ...; t <= n; t++) body], run for at most [fuel]
    iterations. *)
Fixpoint loop (fuel : nat) (fv coupon_pmt discount : D) (n t : Z)
    (s : Accumulators) : Accumulators :=
  match fuel with
  | O => s
  | S fuel' =>
      if (t <=? n)%Z
      then loop fuel' fv coupon_pmt discount n (int_add t 1)
                (loop_body fv coupon_pmt discount n t s)
      else s
  end.

(** The accumulators when the loop is left.  The loop starts at [t = 1] and
    leaves when [t] passes [n], so it makes [n] iterations ([0] when
    [n <= 0]); that is the fuel it is given. *)
Definition accumulate (params : BondParams D) : Accumulators :=
  let fv := face_value params in
  let c := coupon_rate params /. of_int (frequency params) in
  let y := ytm params /. of_int (frequency params) in
  let n := int_mul (periods params) (frequency params) in
  let coupon_pmt := fv *. c in
  let discount := of_int 1 /. (of_int 1 +. y) in
  loop (Z.to_nat n) fv coupon_pmt discount n 1
       {| acc_price := of_int 0;
          acc_weighted_pv := of_int 0;
          acc_convexity_sum := of_int 0;
          acc_pv_factor := discount |}.

(** The final metrics, from the accumulators. *)
Definition calculate_bond_metrics (params : BondParams D) : BondMetrics D :=
  let y := ytm params /. of_int (frequency params) in
  let s := accumulate params in
  let macaulay :=
    acc_weighted_pv s /. (acc_price s *. of_int (frequency params)) in
  let modified :=
    macaulay /. (of_int 1 +. ytm params /. of_int (frequency params)) in
  {| price := acc_price s;
     macaulay_duration := macaulay;
     modified_duration := modified;
     convexity :=
       acc_convexity_sum s /.
         (acc_price s *. of_int (frequency params)
            *. of_int (frequency params) *. (of_int 1 +. y)
            *. (of_int 1 +. y));
     dv01 := modified *. acc_price s /. of_int 10000;
     yield_to_maturity := ytm params |}.

End Calculator.

Arguments Accumulators D : clear implicits.

(** ** The command line: [parse_arguments] and [main] *)

Local Open Scope string_scope.
Local Open Scope Z_scope.

(** What a call of [strtod] or [strtol] leaves behind: the converted value,
    the text [endptr] points to, and [errno] (which the caller has cleared
    just before the call). *)
Record strtod_result : Type := {
  d_value : float;
  d_rest : string;
  d_errno : Z
}.

Record strtol_result : Type := {
  l_value : Z;
  l_rest : string;
  l_errno : Z
}.

(** The two conversion functions of the C library are not part of the
    program; the program is modelled for any implementation of them.
    [strtol] takes the text and the base. *)
Record Libc : Type := {
  strtod : string -> strtod_result;
  strtol : string -> Z -> strtol_result
}.

(** [*endptr != '\0']: the conversion did not reach the end of the text. *)
Definition not_at_end (rest : string) : bool :=
  match rest with
  | EmptyString => false
  | String c _ => negb (Ascii.eqb c Ascii.zero)
  end.

Definition EXIT_SUCCESS : Z := 0.
Definition EXIT_FAILURE : Z := 1.

(** The texts written to the error stream, line by line: the usage text
    (with the program name for [%s]) and one message per argument. *)
Definition usage (prog : string) : list string :=
  [ "Usage: " ++ prog ++ " <face_value> <coupon_rate> <ytm> <years> <frequency>";
    EmptyString;
    "Arguments:";
    "  face_value  : Face value of the bond (e.g., 1000)";
    "  coupon_rate : Annual coupon rate as decimal (e.g., 0.05 for 5%)";
    "  ytm         : Yield to maturity as decimal (e.g., 0.06 for 6%)";
    "  years       : Years to maturity (e.g., 10)";
    "  frequency   : Payment frequency per year (1=annual, 2=semi-annual, 4=quarterly)" ].

Definition err_face_value : string :=
  "Error: Invalid face value. Must be positive number.".
Definition err_coupon_rate : string :=
  "Error: Invalid coupon rate. Must be between 0 and 1.".
Definition err_ytm : string :=
  "Error: Invalid YTM. Must be non-negative.".
Definition err_periods : string :=
  "Error: Invalid years to maturity. Must be between 1 and 100.".
Definition err_frequency : string :=
  "Error: Invalid frequency. Must be 1, 2, 4, or 12.".

(** The assignments to the fields of [*params]. *)
Definition set_face_value (p : BondParams float) (v : float) :=
  {| face_value := v; coupon_rate := coupon_rate p; ytm := ytm p;
     periods := periods p; frequency := frequency p |}.
Definition set_coupon_rate (p : BondParams float) (v : float) :=
  {| face_value := face_value p; coupon_rate := v; ytm := ytm p;
     periods := periods p; frequency := frequency p |}.
Definition set_ytm (p : BondParams float) (v : float) :=
  {| face_value := face_value p; coupon_rate := coupon_rate p; ytm := v;
     periods := periods p; frequency := frequency p |}.
Definition set_periods (p : BondParams float) (v : Z) :=
  {| face_value := face_value p; coupon_rate := coupon_rate p; ytm := ytm p;
     periods := v; frequency := frequency p |}.
Definition set_frequency (p : BondParams float) (v : Z) :=
  {| face_value := face_value p; coupon_rate := coupon_rate p; ytm := ytm p;
     periods := periods p; frequency := v |}.

(** What the process leaves: its exit code, the lines written to the error
    stream, and the parameters and metrics handed to [print_results] when
    the calculator has been run. *)
Record Outcome : Type := {
  exit_code : Z;
  stderr : list string;
  report : option (BondParams float * BondMetrics float)
}.

Section CommandLine.

Variable libc : Libc.

(** [parse_arguments argc argv params] returns the [int] result, the
    contents of [*params] and the lines written to the error stream. *)
Definition parse_arguments (argc : Z) (argv : list string)
    (params : BondParams float) : Z * BondParams float * list string :=
  let arg i := nth i argv EmptyString in
  if negb (argc =? 6) then (0, params, usage (arg 0%nat)) else
  (* face value *)
  let r := strtod libc (arg 1%nat) in
  let params := set_face_value params (d_value r) in
  if negb (d_errno r =? 0) || not_at_end (d_rest r)
     || PrimFloat.leb (face_value params) 0
  then (0, params, [err_face_value]) else
  (* coupon rate *)
  let r := strtod libc (arg 2%nat) in
  let params := set_coupon_rate params (d_value r) in
  if negb (d_errno r =? 0) || not_at_end (d_rest r)
     || PrimFloat.ltb (coupon_rate params) 0
     || PrimFloat.ltb 1 (coupon_rate params)
  then (0, params, [err_coupon_rate]) else
  (* YTM *)
  let r := strtod libc (arg 3%nat) in
  let params := set_ytm params (d_value r) in
  if negb (d_errno r =? 0) || not_at_end (d_rest r)
     || PrimFloat.ltb (ytm params) 0
  then (0, params, [err_ytm]) else
  (* periods *)
  let r := strtol libc (arg 4%nat) 10 in
  let periods := l_value r in
  if negb (l_errno r =? 0) || not_at_end (l_rest r)
     || (periods <=? 0) || (periods >? 100)
  then (0, params, [err_periods]) else
  let params := set_periods params (int_of_long periods) in
  (* frequency *)
  let r := strtol libc (arg 5%nat) 10 in
  let freq := l_value r in
  if negb (l_errno r =? 0) || not_at_end (l_rest r)
     || (negb (freq =? 1) && negb (freq =? 2) && negb (freq =? 4)
         && negb (freq =? 12))
  then (0, params, [err_frequency]) else
  let params := set_frequency params (int_of_long freq) in
  (1, params, []).

(** [main]: [argc] is the length of [argv]; [uninit] stands for the
    uninitialised contents of the local [params]. *)
Definition main (argv : list string) (uninit : BondParams float) : Outcome :=
  let '(ok, params, err) :=
    parse_arguments (Z.of_nat (List.length argv)) argv uninit in
  if ok =? 0
  then {| exit_code := EXIT_FAILURE; stderr := err; report := None |}
  else
    let metrics := calculate_bond_metrics params in
    {| exit_code := EXIT_SUCCESS; stderr := err;
       report := Some (params, metrics) |}.

End CommandLine.

(** A conversion that consumed the whole text and left [errno] clear. *)
Definition whole_double (v : float) : strtod_result :=
  {| d_value := v; d_rest := EmptyString; d_errno := 0 |}.

Definition whole_long (v : Z) : strtol_result :=
  {| l_value := v; l_rest := EmptyString; l_errno := 0 |}.

(** No conversion: the value is zero and [endptr] is the start of the text. *)
Definition no_double (text : string) : strtod_result :=
  {| d_value := 0%float; d_rest := text; d_errno := 0 |}.

Definition no_long (text : string) : strtol_result :=
  {| l_value := 0; l_rest := text; l_errno := 0 |}.

(** The five conversions [parse_arguments] makes. *)
Definition conversions (libc : Libc) (argv : list string) :=
  (strtod libc (nth 1%nat argv EmptyString),
   strtod libc (nth 2%nat argv EmptyString),
   strtod libc (nth 3%nat argv EmptyString),
   strtol libc (nth 4%nat argv EmptyString) 10,
   strtol libc (nth 5%nat argv EmptyString) 10).

(** The two tests every conversion has to pass: [errno] is clear and the
    whole text was consumed. *)
Definition passed_double (r : strtod_result) : Prop :=
  d_errno r = 0 /\ not_at_end (d_rest r) = false.

Definition passed_long (r : strtol_result) : Prop :=
  l_errno r = 0 /\ not_at_end (l_rest r) = false.

(** ** The preconditions of the calculator *)

Local Open Scope R_scope.

(** In exact arithmetic. *)
Record preconditions (p : BondParams R) : Prop := {
  pre_face_value : 0 < face_value p;
  pre_coupon_rate : 0 <= coupon_rate p <= 1;
  pre_ytm : 0 <= ytm p;
  pre_periods : (1 <= periods p <= 100)%Z;
  pre_frequency :
    (frequency p = 1 \/ frequency p = 2 \/ frequency p = 4 \/ frequency p = 12)%Z
}.

(** In binary64, tested with the comparisons of [double]. *)
Definition frequency_ok (f : Z) : bool :=
  ((f =? 1) || (f =? 2) || (f =? 4) || (f =? 12))%Z.

Definition preconditions64 (p : BondParams float) : bool :=
  PrimFloat.ltb 0 (face_value p)
  && PrimFloat.leb 0 (coupon_rate p) && PrimFloat.leb (coupon_rate p) 1
  && PrimFloat.leb 0 (ytm p)
  && (1 <=? periods p)%Z && (periods p <=? 100)%Z
  && frequency_ok (frequency p).

(** [lo <= x < hi] on [double]s. *)
Definition within (x lo hi : float) : bool :=
  (PrimFloat.leb lo x && PrimFloat.ltb x hi)%bool.

(** ** Exact arithmetic: the sums by direct exponentiation *)

(** [sum_to f k] is [f 1 + f 2 + ... + f k], added in that order. *)
Fixpoint sum_to (f : Z -> R) (k : nat) : R :=
  match k with
  | O => 0
  | S k' => sum_to f k' + f (Z.of_nat k)
  end.

(** The direct definition of the three sums: the cash flow of date [t],
    coupon plus (at the last date) the principal, is discounted by
    [discount ^ t], computed afresh for each date. *)
Definition cash_flow (fv coupon_pmt : R) (n t : Z) : R :=
  if (t =? n)%Z then coupon_pmt + fv else coupon_pmt.

Definition present_value (fv coupon_pmt discount : R) (n t : Z) : R :=
  cash_flow fv coupon_pmt n t * discount ^ Z.to_nat t.

Definition direct_price (fv coupon_pmt discount : R) (n : Z) : R :=
  sum_to (present_value fv coupon_pmt discount n) (Z.to_nat n).

Definition direct_weighted_pv (fv coupon_pmt discount : R) (n : Z) : R :=
  sum_to (fun t => IZR t * present_value fv coupon_pmt discount n t)
         (Z.to_nat n).

Definition direct_convexity_sum (fv coupon_pmt discount : R) (n : Z) : R :=
  sum_to (fun t => IZR (t * (t + 1)) * present_value fv coupon_pmt discount n t)
         (Z.to_nat n).

(** The accumulators once the dates [1..j] are done, by the direct sums. *)
Definition state_after (fv coupon_pmt discount : R) (n : Z) (j : nat)
    : Accumulators R :=
  {| acc_price := sum_to (present_value fv coupon_pmt discount n) j;
     acc_weighted_pv :=
       sum_to (fun t => IZR t * present_value fv coupon_pmt discount n t) j;
     acc_convexity_sum :=
       sum_to (fun t => IZR (t * (t + 1))
                        * present_value fv coupon_pmt discount n t) j;
     acc_pv_factor := discount ^ S j |}.

(** The parameters the calculator derives before the loop. *)
Definition coupon_pmt_of (p : BondParams R) : R :=
  face_value p * (coupon_rate p / IZR (frequency p)).

Definition period_yield (p : BondParams R) : R := ytm p / IZR (frequency p).

Definition discount_of (p : BondParams R) : R := 1 / (1 + period_yield p).

Definition payments (p : BondParams R) : Z := (periods p * frequency p)%Z.

(** The three direct sums of a bond. *)
Definition price_sum (p : BondParams R) : R :=
  direct_price (face_value p) (coupon_pmt_of p) (discount_of p) (payments p).

Definition weighted_sum (p : BondParams R) : R :=
  direct_weighted_pv (face_value p) (coupon_pmt_of p) (discount_of p)
                     (payments p).

Definition convexity_sum (p : BondParams R) : R :=
  direct_convexity_sum (face_value p) (coupon_pmt_of p) (discount_of p)
                       (payments p).

(** [annuity d k] is [d + d^2 + ... + d^k], the value of one unit paid at
    each of the first [k] dates. *)
Definition annuity (d : R) (k : nat) : R := sum_to (fun t => d ^ Z.to_nat t) k.

(** The divisors of the calculator, as it forms them: the frequency (for the
    per-period rates), [1 + y] (discount factor), [price * frequency]
    (Macaulay duration), [1 + ytm / frequency] (modified duration), the
    convexity divisor and the constant 10000 (DV01). *)
Definition divisors (p : BondParams R) : list R :=
  let f := IZR (frequency p) in
  let y := ytm p / f in
  let price := acc_price (accumulate p) in
  [ f; 1 + y; price * f; 1 + ytm p / f;
    price * f * f * (1 + y) * (1 + y); 10000 ].

(** ** Sample inputs *)

(** The par bond of the documented scenario, a discount and a premium bond
    with semi-annual coupons, the discount bond at a higher yield, and a
    zero-coupon bond. *)
Definition par_bond : BondParams R :=
  {| face_value := 1000; coupon_rate := 5 / 100; ytm := 5 / 100;
     periods := 10; frequency := 1 |}.

Definition discount_bond : BondParams R :=
  {| face_value := 1000; coupon_rate := 6 / 100; ytm := 8 / 100;
     periods := 5; frequency := 2 |}.

Definition discount_bond_9 : BondParams R :=
  {| face_value := 1000; coupon_rate := 6 / 100; ytm := 9 / 100;
     periods := 5; frequency := 2 |}.

Definition premium_bond : BondParams R :=
  {| face_value := 1000; coupon_rate := 8 / 100; ytm := 6 / 100;
     periods := 5; frequency := 2 |}.

Definition zero_coupon_bond : BondParams R :=
  {| face_value := 1000; coupon_rate := 0; ytm := 5 / 100;
     periods := 10; frequency := 1 |}.

(** The two documented scenarios in binary64: the decimal literals are
    rounded to the nearest [double], as the C library does when it reads
    them. *)
Definition par_bond64 : BondParams float :=
  {| face_value := 1000%float; coupon_rate := 0.05%float; ytm := 0.05%float;
     periods := 10; frequency := 1 |}.

Definition discount_bond64 : BondParams float :=
  {| face_value := 1000%float; coupon_rate := 0.06%float; ytm := 0.08%float;
     periods := 5; frequency := 2 |}.

(** A one-year bond whose coupon rate is the next [double] above its yield
    of 4%. *)
Definition thin_premium_bond64 : BondParams float :=
  {| face_value := 1000%float; coupon_rate := 0.04000000000000001%float;
     ytm := 0.04%float; periods := 1; frequency := 1 |}.

(** A one-year 5% bond at a yield of zero and at a yield of 1e-17, which
    [1.0 + y] does not resolve. *)
Definition flat_yield_bond64 : BondParams float :=
  {| face_value := 1000%float; coupon_rate := 0.05%float; ytm := 0%float;
     periods := 1; frequency := 1 |}.

Definition faint_yield_bond64 : BondParams float :=
  {| face_value := 1000%float; coupon_rate := 0.05%float; ytm := 1e-17%float;
     periods := 1; frequency := 1 |}.

(** A three-year zero-coupon bond at a yield of 3%. *)
Definition zero_coupon_bond64 : BondParams float :=
  {| face_value := 1000%float; coupon_rate := 0%float; ytm := 0.03%float;
     periods := 3; frequency := 1 |}.

(** A zero-coupon bond of face value 1000 over 100 years, discounted monthly
    at a nominal yield of 1200%: the discount factor is 1/2 per month, and
    well before the 1200th halving [pv_factor] has underflowed to 0. *)
Definition underflow_bond64 : BondParams float :=
  {| face_value := 1000%float; coupon_rate := 0%float; ytm := 12%float;
     periods := 100; frequency := 12 |}.

(** The conversions of a C99 library on the texts used below; [strtod]
    reads [nan] as a NaN.  Any other text is left unconverted. *)
Definition sample_libc : Libc :=
  {| strtod := fun text =>
       if String.eqb text "1000" then whole_double 1000%float
       else if String.eqb text "0.05" then whole_double 0.05%float
       else if String.eqb text "nan" then whole_double PrimFloat.nan
       else no_double text;
     strtol := fun text _ =>
       if String.eqb text "10" then whole_long 10
       else if String.eqb text "1" then whole_long 1
       else no_long text |}.

Definition nan_command_line : list string :=
  ["bond_pricer"; "1000"; "nan"; "0.05"; "10"; "1"].

Definition empty_command_line : list string :=
  ["bond_pricer"; "1000"; EmptyString; "0.05"; "10"; "1"].

Definition valid_command_line : list string :=
  ["bond_pricer"; "1000"; "0.05"; "0.05"; "10"; "1"].

(** The contents of [main]'s local [params] before [parse_arguments] fills
    it, for the runs evaluated below. *)
Definition blank_params : BondParams float :=
  {| face_value := 0%float; coupon_rate := 0%float; ytm := 0%float;
     periods := 0; frequency := 0 |}.

(** ** [print_results]

    The report prints fixed text and, through [printf], the values below.
    The model is the list of those values in print order, each computed as
    the code computes it; the rendering of a number as decimal text is not
    modelled. *)

(** The further arithmetic of [print_results]: negation, the comparison
    [<], and the literals [0.01] and [0.5] (100 and [1.0] are conversions of
    [int]s). *)
Class ReportArith (D : Type) : Type := {
  dneg : D -> D;
  dlt : D -> D -> bool;
  lit_0_01 : D;
  lit_0_5 : D
}.

#[export] Instance R_report : ReportArith R := {
  dneg := Ropp;
  dlt := fun x y => if Rlt_dec x y then true else false;
  lit_0_01 := 1 / 100;
  lit_0_5 := 1 / 2
}.

#[export] Instance binary64_report : ReportArith float := {
  dneg := PrimFloat.opp;
  dlt := PrimFloat.ltb;
  lit_0_01 := 0.01%float;
  lit_0_5 := 0.5%float
}.

Record Report (D : Type) : Type := {
  rep_face_value : D;
  rep_coupon_percent : D;
  rep_coupon_rate : D;
  rep_ytm_percent : D;
  rep_ytm : D;
  rep_periods : Z;
  rep_frequency : Z;
  rep_total_payments : Z;
  rep_price : D;
  rep_percent_of_par : D;
  rep_macaulay_duration : D;
  rep_modified_duration : D;
  rep_convexity : D;
  rep_dv01 : D;
  rep_price_change : D;
  rep_percent_change : D;
  rep_convexity_adjustment : D;
  rep_trading : string
}.

Section Reporter.

Context {D : Type} {arith : DoubleArith D} {report_arith : ReportArith D}.

Local Infix "*." := dmul (at level 40, left associativity).
Local Infix "/." := ddiv (at level 40, left associativity).

(** [price > face_value ? premium : price < face_value ? discount : par];
    [a > b] is the comparison [b < a]. *)
Definition trading (price fv : D) : string :=
  if dlt fv price then "premium"
  else if dlt price fv then "discount"
  else "par".

Definition print_results (params : BondParams D) (metrics : BondMetrics D)
    : Report D :=
  {| rep_face_value := face_value params;
     rep_coupon_percent := coupon_rate params *. of_int 100;
     rep_coupon_rate := coupon_rate params;
     rep_ytm_percent := ytm params *. of_int 100;
     rep_ytm := ytm params;
     rep_periods := periods params;
     rep_frequency := frequency params;
     rep_total_payments := int_mul (periods params) (frequency params);
     rep_price := price metrics;
     rep_percent_of_par := (price metrics /. face_value params) *. of_int 100;
     rep_macaulay_duration := macaulay_duration metrics;
     rep_modified_duration := modified_duration metrics;
     rep_convexity := convexity metrics;
     rep_dv01 := dv01 metrics;
     rep_price_change :=
       dneg (modified_duration metrics) *. price metrics *. lit_0_01;
     rep_percent_change := dneg (modified_duration metrics) *. of_int 1;
     rep_convexity_adjustment :=
       lit_0_5 *. convexity metrics *. price metrics *. lit_0_01 *. lit_0_01;
     rep_trading := trading (price metrics) (face_value params) |}.

End Reporter.

(** ** Further definitions used in the statements *)

(** The bond [p] with its face value multiplied by [k]. *)
Definition scale_face_value (k : R) (p : BondParams R) : BondParams R :=
  {| face_value := k * face_value p; coupon_rate := coupon_rate p;
     ytm := ytm p; periods := periods p; frequency := frequency p |}.

(** The bond [p] with another coupon rate. *)
Definition with_coupon_rate (c : R) (p : BondParams R) : BondParams R :=
  {| face_value := face_value p; coupon_rate := c;
     ytm := ytm p; periods := periods p; frequency := frequency p |}.

(** A five-year 6% bond with semi-annual coupons at a yield of zero. *)
Definition zero_yield_bond : BondParams R :=
  {| face_value := 1000; coupon_rate := 6 / 100; ytm := 0;
     periods := 5; frequency := 2 |}.

(** The documented par bond with a NaN for coupon rate, as the command line
    [bond_pricer 1000 nan 0.05 10 1] yields it. *)
Definition nan_coupon_bond64 : BondParams float :=
  {| face_value := 1000%float; coupon_rate := PrimFloat.nan;
     ytm := 0.05%float; periods := 10; frequency := 1 |}.

(** The five messages of [parse_arguments], in the order of the arguments. *)
Definition argument_errors : list string :=
  [err_face_value; err_coupon_rate; err_ytm; err_periods; err_frequency].

(** Every test [parse_arguments] makes on the five conversions passes. *)
Definition all_tests_pass (libc : Libc) (argv : list string) : Prop :=
  let '(r1, r2, r3, r4, r5) := conversions libc argv in
  passed_double r1 /\ passed_double r2 /\ passed_double r3 /\
  passed_long r4 /\ passed_long r5 /\
  PrimFloat.leb (d_value r1) 0 = false /\
  PrimFloat.ltb (d_value r2) 0 = false /\
  PrimFloat.ltb 1 (d_value r2) = false /\
  PrimFloat.ltb (d_value r3) 0 = false /\
  (1 <= l_value r4 <= 100)%Z /\
  frequency_ok (l_value r5) = true.

(** The parameters made of the five converted values. *)
Definition converted_params (libc : Libc) (argv : list string)
    : BondParams float :=
  let '(r1, r2, r3, r4, r5) := conversions libc argv in
  {| face_value := d_value r1; coupon_rate := d_value r2; ytm := d_value r3;
     periods := l_value r4; frequency := l_value r5 |}.

(** ** Direct exponentiation in the arithmetic of [double]

    [fast_pow], which the source keeps in a comment above the calculator:
    exponentiation by squaring, one iteration per bit of the [int] exponent
    (at most 31 for a positive [int]; the fuel is 32). *)

Section DirectExponentiation.

Context {D : Type} {arith : DoubleArith D}.

Local Infix "+." := dadd (at level 50, left associativity).
Local Infix "*." := dmul (at level 40, left associativity).
Local Infix "/." := ddiv (at level 40, left associativity).

Fixpoint fast_pow_loop (fuel : nat) (result current : D) (exp : Z) : D :=
  match fuel with
  | O => result
  | S fuel' =>
      if (exp >? 0)%Z
      then
        let result :=
          if (Z.land exp 1 =? 0)%Z then result else result *. current in
        fast_pow_loop fuel' result (current *. current) (Z.shiftr exp 1)
      else result
  end.

Definition fast_pow (base : D) (exp : Z) : D :=
  fast_pow_loop 32 (of_int 1) base exp.

(** [f 1 + f 2 + ... + f k] in the arithmetic [D], added in that order from
    [0.0]. *)
Fixpoint dsum_to (f : Z -> D) (k : nat) : D :=
  match k with
  | O => of_int 0
  | S k' => dsum_to f k' +. f (Z.of_nat k)
  end.

(** The three sums with the cash flow of each date [t] discounted by
    [discount ^ t], the power computed afresh by [fast_pow]; the parameters
    are derived as the calculator derives them. *)
Definition fresh_present_value (fv coupon_pmt discount : D) (n t : Z) : D :=
  (if (t =? n)%Z then coupon_pmt +. fv else coupon_pmt) *. fast_pow discount t.

Definition direct_accumulate (params : BondParams D) : D * D * D :=
  let fv := face_value params in
  let c := coupon_rate params /. of_int (frequency params) in
  let y := ytm params /. of_int (frequency params) in
  let n := int_mul (periods params) (frequency params) in
  let coupon_pmt := fv *. c in
  let discount := of_int 1 /. (of_int 1 +. y) in
  let pv := fresh_present_value fv coupon_pmt discount n in
  (dsum_to pv (Z.to_nat n),
   dsum_to (fun t => of_int t *. pv t) (Z.to_nat n),
   dsum_to (fun t => of_int (int_mul t (int_add t 1)) *. pv t) (Z.to_nat n)).

End DirectExponentiation.

(** [|a - b| <= tolerance * |a|] on [double]s. *)
Definition within_relative (tolerance a b : float) : bool :=
  PrimFloat.leb (PrimFloat.abs (PrimFloat.sub a b))
                (PrimFloat.mul tolerance (PrimFloat.abs a)).

(** Two par bonds at the ends of the range of [double]: a one-year bond of
    face value 1e308 at 100%, and a two-year quarterly bond of the smallest
    positive face value at 50%. *)
Definition overflow_par_bond64 : BondParams float :=
  {| face_value := 1e308%float; coupon_rate := 1%float; ytm := 1%float;
     periods := 1; frequency := 1 |}.

Definition subnormal_par_bond64 : BondParams float :=
  {| face_value := 0x1p-1074%float; coupon_rate := 0.5%float;
     ytm := 0.5%float; periods := 2; frequency := 4 |}.

(** A zero-coupon bond over 100 years, discounted monthly at a nominal yield
    of 1150%: the monthly discount factor is a little above 1/2. *)
Definition stuck_discount_bond64 : BondParams float :=
  {| face_value := 1000%float; coupon_rate := 0%float; ytm := 11.5%float;
     periods := 100; frequency := 12 |}.

(** * Part II: lemmas and theorems *)

(** ** Integer facts: no wrap-around on the calculator's domain *)

Lemma int_wrap_small (z : Z) :
  (INT_MIN <= z <= INT_MAX)%Z -> int_wrap z = z.
Proof.
  unfold INT_MIN, INT_MAX, int_wrap. intros Hz.
  rewrite Z.mod_small; lia.
Qed.

Lemma int_add_small (a b : Z) :
  (INT_MIN <= a + b <= INT_MAX)%Z -> int_add a b = (a + b)%Z.
Proof. apply int_wrap_small. Qed.

Lemma int_mul_small (a b : Z) :
  (INT_MIN <= a * b <= INT_MAX)%Z -> int_mul a b = (a * b)%Z.
Proof. apply int_wrap_small. Qed.

Lemma next_date_exact (n t : Z) :
  (1 <= t <= n)%Z -> (n <= MAX_PAYMENTS)%Z -> int_add t 1 = (t + 1)%Z.
Proof.
  unfold MAX_PAYMENTS. intros Ht Hn. apply int_add_small.
  unfold INT_MIN, INT_MAX. lia.
Qed.

Lemma convexity_weight_exact (n t : Z) :
  (1 <= t <= n)%Z -> (n <= MAX_PAYMENTS)%Z ->
  int_mul t (int_add t 1) = (t * (t + 1))%Z.
Proof.
  unfold MAX_PAYMENTS. intros Ht Hn.
  rewrite (next_date_exact Ht Hn).
  apply int_mul_small. unfold INT_MIN, INT_MAX. nia.
Qed.

(** ** Termination of the loop

    Whatever the arithmetic, once the fuel covers the dates left up to [n]
    the loop has left through its guard: more fuel changes nothing. *)

Section LoopFuel.

Context {D : Type} {arith : DoubleArith D}.
Variables fv coupon_pmt discount : D.
Variable n : Z.
Hypothesis n_small : (n <= MAX_PAYMENTS)%Z.

Lemma loop_exit (fuel : nat) (t : Z) (s : Accumulators D) :
  (n < t)%Z -> loop fuel fv coupon_pmt discount n t s = s.
Proof.
  intros Ht. destruct fuel as [|fuel]; cbn [loop]; [reflexivity|].
  apply Z.leb_gt in Ht. now rewrite Ht.
Qed.

Lemma loop_fuel_sufficient (fuel extra : nat) (t : Z) (s : Accumulators D) :
  (1 <= t)%Z -> (n - t + 1 <= Z.of_nat fuel)%Z ->
  loop (fuel + extra) fv coupon_pmt discount n t s
  = loop fuel fv coupon_pmt discount n t s.
Proof.
  revert t s. induction fuel as [|fuel IH]; intros t s Ht Hfuel.
  - cbn [Nat.add loop]. apply loop_exit. lia.
  - cbn [Nat.add loop]. destruct (t <=? n)%Z eqn:Hguard; [|reflexivity].
    apply Z.leb_le in Hguard.
    rewrite (@next_date_exact n t) by lia.
    apply IH; lia.
Qed.

(** In particular the [n] iterations granted from [t = 1] are enough. *)
Lemma loop_from_one_complete (extra : nat) (s : Accumulators D) :
  loop (Z.to_nat n + extra) fv coupon_pmt discount n 1 s
  = loop (Z.to_nat n) fv coupon_pmt discount n 1 s.
Proof. apply loop_fuel_sufficient; lia. Qed.

End LoopFuel.

(** ** Sums *)

Lemma sum_to_ext (f g : Z -> R) (k : nat) :
  (forall t, (1 <= t <= Z.of_nat k)%Z -> f t = g t) ->
  sum_to f k = sum_to g k.
Proof.
  induction k as [|k IH]; intros Hfg; cbn [sum_to]; [reflexivity|].
  rewrite IH, (Hfg (Z.of_nat (S k))) by (intros; try apply Hfg; lia).
  reflexivity.
Qed.

Lemma sum_to_scale (a : R) (f : Z -> R) (k : nat) :
  sum_to (fun t => a * f t) k = a * sum_to f k.
Proof.
  induction k as [|k IH]; cbn [sum_to]; [ring|]. rewrite IH. ring.
Qed.

Lemma sum_to_nonneg (f : Z -> R) (k : nat) :
  (forall t, (1 <= t <= Z.of_nat k)%Z -> 0 <= f t) -> 0 <= sum_to f k.
Proof.
  induction k as [|k IH]; intros Hf; cbn [sum_to]; [lra|].
  assert (0 <= sum_to f k) by (apply IH; intros; apply Hf; lia).
  assert (0 <= f (Z.of_nat (S k))) by (apply Hf; lia).
  lra.
Qed.

Lemma sum_to_le (f g : Z -> R) (k : nat) :
  (forall t, (1 <= t <= Z.of_nat k)%Z -> f t <= g t) ->
  sum_to f k <= sum_to g k.
Proof.
  induction k as [|k IH]; intros Hfg; cbn [sum_to]; [lra|].
  assert (sum_to f k <= sum_to g k) by (apply IH; intros; apply Hfg; lia).
  assert (f (Z.of_nat (S k)) <= g (Z.of_nat (S k))) by (apply Hfg; lia).
  lra.
Qed.

Lemma sum_to_pos (f : Z -> R) (k : nat) :
  (0 < k)%nat ->
  (forall t, (1 <= t <= Z.of_nat k)%Z -> 0 < f t) -> 0 < sum_to f k.
Proof.
  intros Hk Hf. destruct k as [|k]; [lia|]. cbn [sum_to].
  assert (0 <= sum_to f k)
    by (apply sum_to_nonneg; intros; apply Rlt_le, Hf; lia).
  assert (0 < f (Z.of_nat (S k))) by (apply Hf; lia).
  lra.
Qed.

Lemma sum_to_lt (f g : Z -> R) (k : nat) :
  (0 < k)%nat ->
  (forall t, (1 <= t <= Z.of_nat k)%Z -> f t < g t) ->
  sum_to f k < sum_to g k.
Proof.
  intros Hk Hfg. destruct k as [|k]; [lia|]. cbn [sum_to].
  assert (sum_to f k <= sum_to g k)
    by (apply sum_to_le; intros; apply Rlt_le, Hfg; lia).
  assert (f (Z.of_nat (S k)) < g (Z.of_nat (S k))) by (apply Hfg; lia).
  lra.
Qed.

(** ** The loop computes the direct sums *)

Lemma Accumulators_eq (a b c d a' b' c' d' : R) :
  a = a' -> b = b' -> c = c' -> d = d' ->
  Build_Accumulators a b c d = Build_Accumulators a' b' c' d'.
Proof. intros; subst; reflexivity. Qed.

Lemma present_value_of_nat (fv coupon_pmt discount : R) (n : Z) (j : nat) :
  present_value fv coupon_pmt discount n (Z.of_nat j)
  = cash_flow fv coupon_pmt n (Z.of_nat j) * discount ^ j.
Proof. unfold present_value. now rewrite Nat2Z.id. Qed.

Section LoopInvariant.

Variables fv coupon_pmt discount : R.
Variable n : Z.
Hypothesis n_small : (n <= MAX_PAYMENTS)%Z.

Let after := state_after fv coupon_pmt discount n.

Lemma loop_body_state_after (j : nat) :
  (Z.of_nat (S j) <= n)%Z ->
  loop_body fv coupon_pmt discount n (Z.of_nat (S j)) (after j)
  = after (S j).
Proof.
  intros Hj. unfold after, loop_body, state_after.
  rewrite (@convexity_weight_exact n (Z.of_nat (S j))) by lia.
  cbn [acc_price acc_weighted_pv acc_convexity_sum acc_pv_factor
       of_int dadd dmul R_arith sum_to].
  rewrite present_value_of_nat. unfold cash_flow.
  apply Accumulators_eq; try reflexivity.
  rewrite <- (tech_pow_Rmult discount (S j)). ring.
Qed.

Lemma loop_state_after (k j : nat) :
  (Z.of_nat (j + k) <= n)%Z ->
  loop k fv coupon_pmt discount n (Z.of_nat (S j)) (after j) = after (j + k).
Proof.
  revert j. induction k as [|k IH]; intros j Hjk.
  - rewrite Nat.add_0_r. reflexivity.
  - cbn [loop].
    replace (Z.of_nat (S j) <=? n)%Z with true
      by (symmetry; apply Z.leb_le; lia).
    rewrite (@next_date_exact n (Z.of_nat (S j))) by lia.
    rewrite loop_body_state_after by lia.
    replace (Z.of_nat (S j) + 1)%Z with (Z.of_nat (S (S j))) by lia.
    rewrite IH by lia. f_equal. lia.
Qed.

(** From the initial state the whole loop yields the direct sums. *)
Lemma loop_from_start :
  loop (Z.to_nat n) fv coupon_pmt discount n 1
       {| acc_price := 0; acc_weighted_pv := 0; acc_convexity_sum := 0;
          acc_pv_factor := discount |}
  = state_after fv coupon_pmt discount n (Z.to_nat n).
Proof.
  assert (Hinit : Build_Accumulators 0 0 0 discount = after 0).
  { unfold after, state_after. cbn [sum_to].
    apply Accumulators_eq; try reflexivity. now rewrite pow_1. }
  rewrite Hinit. destruct (Z.le_gt_cases 0 n) as [Hn|Hn].
  - change 1%Z with (Z.of_nat 1).
    rewrite loop_state_after by (cbn [Nat.add]; lia).
    reflexivity.
  - replace (Z.to_nat n) with O by lia. reflexivity.
Qed.

End LoopInvariant.

(** ** The calculator on its precondition domain *)

Lemma payments_range (p : BondParams R) :
  preconditions p -> (1 <= payments p <= MAX_PAYMENTS)%Z.
Proof.
  intros [_ _ _ Hper Hfreq]. unfold payments, MAX_PAYMENTS.
  destruct Hfreq as [-> | [-> | [-> | ->]]]; lia.
Qed.

Lemma payments_exact (p : BondParams R) :
  preconditions p -> int_mul (periods p) (frequency p) = payments p.
Proof.
  intros Hp. apply int_mul_small.
  pose proof (payments_range Hp) as Hn.
  unfold payments, MAX_PAYMENTS, INT_MIN, INT_MAX in *. lia.
Qed.

Lemma frequency_pos (p : BondParams R) :
  preconditions p -> 1 <= IZR (frequency p).
Proof.
  intros [_ _ _ _ Hfreq]. apply IZR_le.
  destruct Hfreq as [-> | [-> | [-> | ->]]]; lia.
Qed.

Lemma period_yield_nonneg (p : BondParams R) :
  preconditions p -> 0 <= period_yield p.
Proof.
  intros Hp. pose proof (frequency_pos Hp). pose proof (pre_ytm Hp).
  unfold period_yield. apply Rmult_le_pos; [assumption|].
  apply Rlt_le, Rinv_0_lt_compat. lra.
Qed.

Lemma discount_range (p : BondParams R) :
  preconditions p -> 0 < discount_of p <= 1.
Proof.
  intros Hp. pose proof (period_yield_nonneg Hp) as Hy.
  unfold discount_of. split.
  - apply Rdiv_lt_0_compat; lra.
  - apply (Rmult_le_reg_r (1 + period_yield p)); [lra|].
    unfold Rdiv. rewrite Rmult_assoc, Rinv_l by lra. lra.
Qed.

Lemma coupon_pmt_nonneg (p : BondParams R) :
  preconditions p -> 0 <= coupon_pmt_of p.
Proof.
  intros Hp. pose proof (frequency_pos Hp).
  pose proof (pre_face_value Hp). pose proof (pre_coupon_rate Hp).
  unfold coupon_pmt_of. apply Rmult_le_pos; [lra|].
  apply Rmult_le_pos; [lra|]. apply Rlt_le, Rinv_0_lt_compat. lra.
Qed.

(** At loop exit the accumulators hold the direct sums. *)
Lemma accumulate_direct (p : BondParams R) :
  preconditions p ->
  accumulate p
  = state_after (face_value p) (coupon_pmt_of p) (discount_of p) (payments p)
                (Z.to_nat (payments p)).
Proof.
  intros Hp. unfold accumulate. rewrite (payments_exact Hp).
  apply loop_from_start. apply (payments_range Hp).
Qed.

(** ** Closed forms of the sums *)

Section ClosedForms.

Variables fv coupon_pmt discount : R.
Variable n : Z.
Hypothesis n_pos : (1 <= n)%Z.

Let pv := present_value fv coupon_pmt discount n.

(** Before the last date every cash flow is the coupon alone. *)
Lemma weighted_sum_before_maturity (w : Z -> R) (k : nat) :
  (Z.of_nat k < n)%Z ->
  sum_to (fun t => w t * pv t) k
  = coupon_pmt * sum_to (fun t => w t * discount ^ Z.to_nat t) k.
Proof.
  intros Hk. rewrite <- sum_to_scale. apply sum_to_ext. intros t Ht.
  unfold pv, present_value, cash_flow.
  replace (t =? n)%Z with false by (symmetry; apply Z.eqb_neq; lia).
  ring.
Qed.

(** The whole sum: a coupon stream plus the principal at date [n]. *)
Lemma weighted_sum_split (w : Z -> R) :
  sum_to (fun t => w t * pv t) (Z.to_nat n)
  = coupon_pmt * sum_to (fun t => w t * discount ^ Z.to_nat t) (Z.to_nat n)
    + w n * (fv * discount ^ Z.to_nat n).
Proof.
  destruct (Z.to_nat n) as [|k] eqn:Hk; [lia|].
  assert (Hn : Z.of_nat (S k) = n) by lia.
  cbn [sum_to]. rewrite weighted_sum_before_maturity by lia.
  rewrite Hn. unfold pv, present_value, cash_flow.
  rewrite Z.eqb_refl, Hk. ring.
Qed.

Lemma direct_price_closed :
  direct_price fv coupon_pmt discount n
  = coupon_pmt * annuity discount (Z.to_nat n) + fv * discount ^ Z.to_nat n.
Proof.
  unfold direct_price, annuity.
  rewrite (sum_to_ext (present_value fv coupon_pmt discount n)
                      (fun t => 1 * pv t))
    by (intros; unfold pv; ring).
  rewrite weighted_sum_split.
  rewrite (sum_to_ext (fun t => 1 * discount ^ Z.to_nat t)
                      (fun t => discount ^ Z.to_nat t))
    by (intros; ring).
  ring.
Qed.

Lemma direct_weighted_pv_closed :
  direct_weighted_pv fv coupon_pmt discount n
  = coupon_pmt * sum_to (fun t => IZR t * discount ^ Z.to_nat t) (Z.to_nat n)
    + IZR n * (fv * discount ^ Z.to_nat n).
Proof. unfold direct_weighted_pv. apply (weighted_sum_split IZR). Qed.

Lemma direct_convexity_sum_closed :
  direct_convexity_sum fv coupon_pmt discount n
  = coupon_pmt
    * sum_to (fun t => IZR (t * (t + 1)) * discount ^ Z.to_nat t) (Z.to_nat n)
    + IZR (n * (n + 1)) * (fv * discount ^ Z.to_nat n).
Proof.
  unfold direct_convexity_sum.
  apply (weighted_sum_split (fun t => IZR (t * (t + 1)))).
Qed.

End ClosedForms.

(** The geometric sum: with [d = 1 / (1 + y)], [y * (d + ... + d^k)] is
    [1 - d^k]. *)
Lemma annuity_yield (y : R) (k : nat) :
  1 + y <> 0 ->
  y * annuity (1 / (1 + y)) k = 1 - (1 / (1 + y)) ^ k.
Proof.
  intros Hy. unfold annuity.
  induction k as [|k IH]; cbn [sum_to]; [cbn [pow]; ring|].
  rewrite Rmult_plus_distr_l, IH, Nat2Z.id.
  cbn [pow]. field. exact Hy.
Qed.

Lemma annuity_pos (d : R) (k : nat) :
  0 < d -> (0 < k)%nat -> 0 < annuity d k.
Proof.
  intros Hd Hk. apply sum_to_pos; [exact Hk|].
  intros t _. now apply pow_lt.
Qed.

Lemma pow_lt_strict (a b : R) (k : nat) :
  0 < a -> a < b -> (0 < k)%nat -> a ^ k < b ^ k.
Proof.
  intros Ha Hab Hk. induction k as [|k IH]; [lia|].
  destruct k as [|k].
  - rewrite !pow_1. exact Hab.
  - assert (0 < a ^ S k) by now apply pow_lt.
    assert (a ^ S k < b ^ S k) by (apply IH; lia).
    change (a * a ^ S k < b * b ^ S k). nra.
Qed.

Lemma annuity_lt (a b : R) (k : nat) :
  0 < a -> a < b -> (0 < k)%nat -> annuity a k < annuity b k.
Proof.
  intros Ha Hab Hk. apply sum_to_lt; [exact Hk|].
  intros t Ht. apply pow_lt_strict; [assumption..|lia].
Qed.

(** ** The metrics in exact arithmetic *)

Lemma calculate_exact (p : BondParams R) :
  preconditions p ->
  calculate_bond_metrics p
  = let f := IZR (frequency p) in
    let mac := weighted_sum p / (price_sum p * f) in
    let mod_ := mac / (1 + ytm p / f) in
    {| price := price_sum p;
       macaulay_duration := mac;
       modified_duration := mod_;
       convexity :=
         convexity_sum p
         / (price_sum p * f * f * (1 + ytm p / f) * (1 + ytm p / f));
       dv01 := mod_ * price_sum p / 10000;
       yield_to_maturity := ytm p |}.
Proof.
  intros Hp. unfold calculate_bond_metrics.
  rewrite (accumulate_direct Hp). reflexivity.
Qed.

Lemma present_value_nonneg (p : BondParams R) (t : Z) :
  preconditions p ->
  0 <= present_value (face_value p) (coupon_pmt_of p) (discount_of p)
                     (payments p) t.
Proof.
  intros Hp. pose proof (coupon_pmt_nonneg Hp). pose proof (pre_face_value Hp).
  destruct (discount_range Hp) as [Hd _].
  unfold present_value, cash_flow. apply Rmult_le_pos.
  - destruct (t =? payments p)%Z; lra.
  - apply Rlt_le, pow_lt, Hd.
Qed.

Lemma redemption_pos (p : BondParams R) :
  preconditions p ->
  0 < face_value p * discount_of p ^ Z.to_nat (payments p).
Proof.
  intros Hp. destruct (discount_range Hp) as [Hd _].
  apply Rmult_lt_0_compat; [apply (pre_face_value Hp) | now apply pow_lt].
Qed.

(** The price is the coupon annuity plus the discounted principal. *)
Lemma price_sum_closed (p : BondParams R) :
  preconditions p ->
  price_sum p
  = coupon_pmt_of p * annuity (discount_of p) (Z.to_nat (payments p))
    + face_value p * discount_of p ^ Z.to_nat (payments p).
Proof.
  intros Hp. apply direct_price_closed. apply (payments_range Hp).
Qed.

Lemma annuity_of_pos (p : BondParams R) :
  preconditions p -> 0 < annuity (discount_of p) (Z.to_nat (payments p)).
Proof.
  intros Hp. destruct (discount_range Hp) as [Hd _].
  pose proof (payments_range Hp). apply annuity_pos; [exact Hd | lia].
Qed.

Lemma price_sum_pos (p : BondParams R) :
  preconditions p -> 0 < price_sum p.
Proof.
  intros Hp. rewrite (price_sum_closed Hp).
  pose proof (redemption_pos Hp). pose proof (coupon_pmt_nonneg Hp).
  pose proof (annuity_of_pos Hp).
  assert (0 <= coupon_pmt_of p
               * annuity (discount_of p) (Z.to_nat (payments p)))
    by (apply Rmult_le_pos; lra).
  lra.
Qed.

(** The price differs from the face value by the spread between coupon rate
    and yield, paid as an annuity. *)
Lemma price_minus_face (p : BondParams R) :
  preconditions p ->
  price_sum p - face_value p
  = face_value p * ((coupon_rate p - ytm p) / IZR (frequency p))
    * annuity (discount_of p) (Z.to_nat (payments p)).
Proof.
  intros Hp. rewrite (price_sum_closed Hp).
  pose proof (period_yield_nonneg Hp) as Hy.
  pose proof (frequency_pos Hp) as Hf.
  assert (Hgeo := @annuity_yield (period_yield p) (Z.to_nat (payments p))).
  fold (discount_of p) in Hgeo.
  assert (Hpow : discount_of p ^ Z.to_nat (payments p)
                 = 1 - period_yield p
                       * annuity (discount_of p) (Z.to_nat (payments p)))
    by (rewrite Hgeo; lra).
  rewrite Hpow. unfold coupon_pmt_of, period_yield. field. lra.
Qed.

Lemma price_field (p : BondParams R) :
  preconditions p -> price (calculate_bond_metrics p) = price_sum p.
Proof. intros Hp. now rewrite (calculate_exact Hp). Qed.

Lemma macaulay_field (p : BondParams R) :
  preconditions p ->
  macaulay_duration (calculate_bond_metrics p)
  = weighted_sum p / (price_sum p * IZR (frequency p)).
Proof. intros Hp. now rewrite (calculate_exact Hp). Qed.

Ltac sample_preconditions :=
  constructor; cbn [face_value coupon_rate ytm periods frequency];
  first [lra | lia | tauto].

Lemma par_bond_ok : preconditions par_bond.
Proof. unfold par_bond. sample_preconditions. Qed.

Lemma discount_bond_ok : preconditions discount_bond.
Proof. unfold discount_bond. sample_preconditions. Qed.

Lemma premium_bond_ok : preconditions premium_bond.
Proof. unfold premium_bond. sample_preconditions. Qed.

Lemma zero_coupon_bond_ok : preconditions zero_coupon_bond.
Proof. unfold zero_coupon_bond. sample_preconditions. Qed.

(** ** Pricing identities *)

(** C8: in exact arithmetic, on the precondition domain, the loop (which
    carries [pv_factor] along and multiplies it by [discount] after each of
    its [n] iterations) leaves in [price], [weighted_pv] and [convexity_sum]
    exactly the sums obtained by discounting the cash flow of each date [t]
    by [discount ^ t]; the price returned is that direct sum. *)
Theorem iterative_discounting_is_direct (p : BondParams R) :
  preconditions p ->
  let fv := face_value p in
  let coupon_pmt := fv * (coupon_rate p / IZR (frequency p)) in
  let discount := 1 / (1 + ytm p / IZR (frequency p)) in
  let n := (periods p * frequency p)%Z in
  acc_price (accumulate p) = direct_price fv coupon_pmt discount n /\
  acc_weighted_pv (accumulate p) = direct_weighted_pv fv coupon_pmt discount n /\
  acc_convexity_sum (accumulate p)
  = direct_convexity_sum fv coupon_pmt discount n /\
  price (calculate_bond_metrics p) = direct_price fv coupon_pmt discount n.
Proof.
  intros Hp. cbv zeta. rewrite (price_field Hp), (accumulate_direct Hp).
  repeat split; reflexivity.
Qed.

Lemma iterative_discounting_is_direct_witness :
  preconditions discount_bond /\
  price (calculate_bond_metrics discount_bond)
  = direct_price 1000 (1000 * (6 / 100 / IZR 2)) (1 / (1 + 8 / 100 / IZR 2)) 10.
Proof.
  split; [exact discount_bond_ok|].
  exact (proj2 (proj2 (proj2
           (iterative_discounting_is_direct discount_bond_ok)))).
Defined.

(** C1, in exact arithmetic: a bond of the precondition domain whose coupon
    rate equals its yield is priced at par, the computed price is the face
    value. *)
Theorem par_bond_price (p : BondParams R) :
  preconditions p ->
  coupon_rate p = ytm p ->
  price (calculate_bond_metrics p) = face_value p.
Proof.
  intros Hp Hpar. rewrite (price_field Hp).
  pose proof (price_minus_face Hp) as Hdiff.
  rewrite Hpar in Hdiff.
  replace ((ytm p - ytm p) / IZR (frequency p)) with 0 in Hdiff
    by (unfold Rdiv; ring).
  lra.
Qed.

Lemma par_bond_price_witness :
  preconditions par_bond /\ coupon_rate par_bond = ytm par_bond /\
  price (calculate_bond_metrics par_bond) = 1000.
Proof.
  split; [exact par_bond_ok|]. split; [reflexivity|].
  exact (par_bond_price par_bond_ok eq_refl).
Defined.

Lemma spread_annuity_sign (p : BondParams R) :
  preconditions p ->
  (ytm p < coupon_rate p -> face_value p < price_sum p) /\
  (coupon_rate p < ytm p -> price_sum p < face_value p).
Proof.
  intros Hp. pose proof (price_minus_face Hp) as Hdiff.
  pose proof (annuity_of_pos Hp) as Ha.
  pose proof (pre_face_value Hp) as Hfv.
  pose proof (frequency_pos Hp) as Hf.
  assert (Hif : 0 < / IZR (frequency p)) by (apply Rinv_0_lt_compat; lra).
  unfold Rdiv in Hdiff.
  set (a := annuity (discount_of p) (Z.to_nat (payments p))) in *.
  set (g := / IZR (frequency p)) in *.
  assert (Hk : 0 < face_value p * g * a)
    by (repeat apply Rmult_lt_0_compat; assumption).
  split; intros Hrate; nra.
Qed.

(** C2, in exact arithmetic: a coupon rate above the yield gives a price
    strictly above the face value (premium), a coupon rate below the yield a
    price strictly below it (discount). *)
Theorem premium_discount (p : BondParams R) :
  preconditions p ->
  (ytm p < coupon_rate p -> face_value p < price (calculate_bond_metrics p)) /\
  (coupon_rate p < ytm p -> price (calculate_bond_metrics p) < face_value p).
Proof.
  intros Hp. rewrite (price_field Hp). exact (spread_annuity_sign Hp).
Qed.

Lemma premium_discount_witness :
  1000 < price (calculate_bond_metrics premium_bond) /\
  price (calculate_bond_metrics discount_bond) < 1000.
Proof.
  split.
  - apply (proj1 (premium_discount premium_bond_ok)).
    cbn [ytm coupon_rate premium_bond]. lra.
  - apply (proj2 (premium_discount discount_bond_ok)).
    cbn [ytm coupon_rate discount_bond]. lra.
Defined.

(** The discount factor falls as the yield rises. *)
Lemma discount_of_decreasing (p q : BondParams R) :
  preconditions p -> preconditions q ->
  frequency p = frequency q -> ytm p < ytm q ->
  discount_of q < discount_of p.
Proof.
  intros Hp Hq Hfreq Hy.
  pose proof (period_yield_nonneg Hp) as Hyp.
  pose proof (frequency_pos Hp) as Hf.
  assert (Hlt : period_yield p < period_yield q).
  { unfold period_yield, Rdiv. rewrite <- Hfreq.
    apply Rmult_lt_compat_r; [apply Rinv_0_lt_compat; lra | exact Hy]. }
  unfold discount_of, Rdiv. rewrite !Rmult_1_l.
  apply Rinv_lt_contravar; [apply Rmult_lt_0_compat|]; lra.
Qed.

Lemma price_sum_decreasing (p q : BondParams R) :
  preconditions p -> preconditions q ->
  face_value p = face_value q -> coupon_rate p = coupon_rate q ->
  periods p = periods q -> frequency p = frequency q ->
  ytm p < ytm q ->
  price_sum q < price_sum p.
Proof.
  intros Hp Hq Hfv Hcr Hper Hfreq Hy.
  rewrite (price_sum_closed Hp), (price_sum_closed Hq).
  assert (Hcp : coupon_pmt_of q = coupon_pmt_of p)
    by (unfold coupon_pmt_of; now rewrite Hfv, Hcr, Hfreq).
  assert (Hn : payments q = payments p)
    by (unfold payments; now rewrite Hper, Hfreq).
  rewrite Hcp, Hn, <- Hfv.
  pose proof (discount_of_decreasing Hp Hq Hfreq Hy) as Hd.
  destruct (discount_range Hq) as [Hdq _].
  pose proof (payments_range Hp) as Hrange.
  assert (Hk : (0 < Z.to_nat (payments p))%nat) by lia.
  pose proof (annuity_lt Hdq Hd Hk) as Hann.
  pose proof (pow_lt_strict Hdq Hd Hk) as Hpow.
  pose proof (coupon_pmt_nonneg Hp) as Hc.
  pose proof (pre_face_value Hp) as Hpos.
  nra.
Qed.

(** C3, in exact arithmetic: with face value, coupon rate, years and
    frequency fixed, the price is strictly decreasing in the yield. *)
Theorem price_decreasing_in_ytm (p q : BondParams R) :
  preconditions p -> preconditions q ->
  face_value p = face_value q -> coupon_rate p = coupon_rate q ->
  periods p = periods q -> frequency p = frequency q ->
  ytm p < ytm q ->
  price (calculate_bond_metrics q) < price (calculate_bond_metrics p).
Proof.
  intros Hp Hq Hfv Hcr Hper Hfreq Hy.
  rewrite (price_field Hp), (price_field Hq).
  now apply price_sum_decreasing.
Qed.

Lemma discount_bond_9_ok : preconditions discount_bond_9.
Proof. unfold discount_bond_9. sample_preconditions. Qed.

Lemma price_decreasing_in_ytm_witness :
  ytm discount_bond < ytm discount_bond_9 /\
  price (calculate_bond_metrics discount_bond_9)
  < price (calculate_bond_metrics discount_bond).
Proof.
  assert (Hy : ytm discount_bond < ytm discount_bond_9)
    by (cbn [ytm discount_bond discount_bond_9]; lra).
  split; [exact Hy|].
  exact (price_decreasing_in_ytm discount_bond_ok discount_bond_9_ok
           eq_refl eq_refl eq_refl eq_refl Hy).
Defined.

(** ** Durations *)

Lemma weighted_sum_le (p : BondParams R) :
  preconditions p -> weighted_sum p <= IZR (payments p) * price_sum p.
Proof.
  intros Hp. unfold weighted_sum, price_sum, direct_weighted_pv, direct_price.
  rewrite <- sum_to_scale. apply sum_to_le. intros t Ht.
  pose proof (payments_range Hp).
  apply Rmult_le_compat_r; [now apply present_value_nonneg|].
  apply IZR_le. lia.
Qed.

Lemma weighted_sum_ge (p : BondParams R) :
  preconditions p -> price_sum p <= weighted_sum p.
Proof.
  intros Hp. unfold weighted_sum, price_sum, direct_weighted_pv, direct_price.
  apply sum_to_le. intros t Ht.
  pose proof (present_value_nonneg t Hp) as Hpv.
  assert (1 <= IZR t) by (apply IZR_le; lia).
  nra.
Qed.

Lemma convexity_sum_ge (p : BondParams R) :
  preconditions p -> price_sum p <= convexity_sum p.
Proof.
  intros Hp. unfold convexity_sum, price_sum, direct_convexity_sum, direct_price.
  apply sum_to_le. intros t Ht.
  pose proof (present_value_nonneg t Hp) as Hpv.
  assert (1 <= IZR (t * (t + 1))) by (apply IZR_le; nia).
  nra.
Qed.

Lemma payments_IZR (p : BondParams R) :
  IZR (payments p) = IZR (periods p) * IZR (frequency p).
Proof. unfold payments. apply mult_IZR. Qed.

Lemma macaulay_divisor_pos (p : BondParams R) :
  preconditions p -> 0 < price_sum p * IZR (frequency p).
Proof.
  intros Hp. pose proof (price_sum_pos Hp). pose proof (frequency_pos Hp).
  apply Rmult_lt_0_compat; lra.
Qed.

Lemma macaulay_bounds (p : BondParams R) :
  preconditions p ->
  0 < weighted_sum p / (price_sum p * IZR (frequency p)) <= IZR (periods p).
Proof.
  intros Hp. pose proof (macaulay_divisor_pos Hp) as Hdiv.
  pose proof (weighted_sum_le Hp) as Hle.
  pose proof (weighted_sum_ge Hp) as Hge.
  pose proof (price_sum_pos Hp) as Hpos.
  rewrite payments_IZR in Hle. split.
  - apply Rdiv_lt_0_compat; lra.
  - apply (Rmult_le_reg_r (price_sum p * IZR (frequency p))); [exact Hdiv|].
    unfold Rdiv. rewrite Rmult_assoc, Rinv_l by lra. lra.
Qed.

(** C4, in exact arithmetic: the Macaulay duration is at most the years to
    maturity, and is strictly positive for a bond that pays a positive
    coupon. *)
Theorem macaulay_duration_bound (p : BondParams R) :
  preconditions p ->
  macaulay_duration (calculate_bond_metrics p) <= IZR (periods p) /\
  (0 < coupon_rate p -> 0 < macaulay_duration (calculate_bond_metrics p)).
Proof.
  intros Hp. rewrite (macaulay_field Hp).
  destruct (macaulay_bounds Hp) as [Hpos Hle]. split; [exact Hle|].
  intros _. exact Hpos.
Qed.

Lemma macaulay_duration_bound_witness :
  macaulay_duration (calculate_bond_metrics par_bond) <= 10 /\
  0 < macaulay_duration (calculate_bond_metrics par_bond).
Proof.
  destruct (macaulay_duration_bound par_bond_ok) as [Hle Hpos].
  split; [exact Hle|].
  apply Hpos. cbn [coupon_rate par_bond]. lra.
Defined.

(** ** Zero-coupon bonds *)

Lemma zero_coupon_sums (p : BondParams R) :
  preconditions p -> coupon_rate p = 0 ->
  price_sum p = face_value p * discount_of p ^ Z.to_nat (payments p) /\
  weighted_sum p
  = IZR (payments p) * (face_value p * discount_of p ^ Z.to_nat (payments p)).
Proof.
  intros Hp Hzero. pose proof (payments_range Hp) as Hn.
  assert (Hcp : coupon_pmt_of p = 0)
    by (unfold coupon_pmt_of; rewrite Hzero; unfold Rdiv; ring).
  unfold price_sum, weighted_sum.
  rewrite direct_price_closed, direct_weighted_pv_closed by lia.
  rewrite Hcp. split; ring.
Qed.

Lemma discount_pow (p : BondParams R) (k : nat) :
  preconditions p ->
  face_value p * discount_of p ^ k
  = face_value p / (1 + ytm p / IZR (frequency p)) ^ k.
Proof.
  intros Hp. unfold discount_of, period_yield, Rdiv at 1.
  rewrite Rmult_1_l, pow_inv. reflexivity.
Qed.

(** C5, in exact arithmetic: with a zero coupon rate the price is the face
    value discounted over all [periods * frequency] dates, and the Macaulay
    duration is exactly the number of years. *)
Theorem zero_coupon_price_and_duration (p : BondParams R) :
  preconditions p ->
  coupon_rate p = 0 ->
  price (calculate_bond_metrics p)
  = face_value p
    / (1 + ytm p / IZR (frequency p)) ^ Z.to_nat (periods p * frequency p) /\
  macaulay_duration (calculate_bond_metrics p) = IZR (periods p).
Proof.
  intros Hp Hzero. rewrite (price_field Hp), (macaulay_field Hp).
  destruct (zero_coupon_sums Hp Hzero) as [Hprice Hweighted].
  pose proof (redemption_pos Hp) as Hpos.
  pose proof (frequency_pos Hp) as Hf.
  rewrite Hweighted, Hprice, payments_IZR. split.
  - apply (discount_pow _ Hp).
  - set (redemption := face_value p * discount_of p ^ Z.to_nat (payments p))
      in *.
    field. split; lra.
Qed.

Lemma zero_coupon_price_and_duration_witness :
  price (calculate_bond_metrics zero_coupon_bond)
  = 1000 / (1 + 5 / 100 / 1) ^ 10 /\
  macaulay_duration (calculate_bond_metrics zero_coupon_bond) = 10.
Proof.
  exact (zero_coupon_price_and_duration zero_coupon_bond_ok eq_refl).
Defined.

(** ** Convexity and DV01 *)

Lemma yield_factor_pos (p : BondParams R) :
  preconditions p -> 0 < 1 + ytm p / IZR (frequency p).
Proof.
  intros Hp. pose proof (period_yield_nonneg Hp) as Hy.
  unfold period_yield in Hy. lra.
Qed.

Lemma convexity_divisor_pos (p : BondParams R) :
  preconditions p ->
  0 < price_sum p * IZR (frequency p) * IZR (frequency p)
      * (1 + ytm p / IZR (frequency p)) * (1 + ytm p / IZR (frequency p)).
Proof.
  intros Hp. pose proof (price_sum_pos Hp).
  pose proof (frequency_pos Hp). pose proof (yield_factor_pos Hp).
  repeat apply Rmult_lt_0_compat; lra.
Qed.

(** C10, in exact arithmetic: on the precondition domain the convexity and
    DV01 are strictly positive. *)
Theorem convexity_dv01_positive (p : BondParams R) :
  preconditions p ->
  0 < convexity (calculate_bond_metrics p) /\
  0 < dv01 (calculate_bond_metrics p).
Proof.
  intros Hp. rewrite (calculate_exact Hp). cbv zeta. cbn [convexity dv01].
  pose proof (price_sum_pos Hp) as Hprice.
  pose proof (convexity_sum_ge Hp) as Hconv.
  pose proof (convexity_divisor_pos Hp) as Hdiv.
  destruct (macaulay_bounds Hp) as [Hmac _].
  pose proof (yield_factor_pos Hp) as Hy.
  split.
  - apply Rdiv_lt_0_compat; lra.
  - apply Rdiv_lt_0_compat; [|lra].
    apply Rmult_lt_0_compat; [|exact Hprice].
    apply Rdiv_lt_0_compat; assumption.
Qed.

Lemma convexity_dv01_positive_witness :
  preconditions discount_bond /\
  0 < convexity (calculate_bond_metrics discount_bond) /\
  0 < dv01 (calculate_bond_metrics discount_bond).
Proof.
  split; [exact discount_bond_ok|].
  exact (convexity_dv01_positive discount_bond_ok).
Defined.

(** ** The documented scenario *)

(** Unfolds the direct sums of a sample bond into explicit arithmetic. *)
Ltac expand_sums bond :=
  cbv [weighted_sum price_sum convexity_sum
       direct_weighted_pv direct_price direct_convexity_sum
       bond payments periods frequency face_value coupon_rate ytm
       coupon_pmt_of discount_of period_yield
       sum_to present_value cash_flow
       Z.mul Z.add Pos.mul Pos.add Pos.succ Pos.add_carry
       Z.to_nat Pos.to_nat Pos.iter_op Nat.add
       Z.eqb Pos.eqb Z.of_nat Pos.of_succ_nat].

Lemma par_bond_exact_metrics :
  let m := calculate_bond_metrics par_bond in
  price m = 1000 /\
  810775 / 100000 <= macaulay_duration m < 810785 / 100000 /\
  772165 / 100000 <= modified_duration m < 772175 / 100000.
Proof.
  cbv zeta. rewrite (calculate_exact par_bond_ok). cbv zeta.
  cbn [price macaulay_duration modified_duration].
  expand_sums par_bond. repeat split; lra.
Qed.

Lemma par_bond_binary64_metrics :
  let m := calculate_bond_metrics par_bond64 in
  within (price m) 999.999999999%float 1000.000000001%float = true /\
  within (macaulay_duration m) 8.10775%float 8.10785%float = true /\
  within (modified_duration m) 7.72165%float 7.72175%float = true.
Proof. vm_compute. repeat split; reflexivity. Qed.

(** C7: for face value 1000, coupon rate 5%, yield 5%, 10 years and annual
    payments the price is 1000, the Macaulay duration 8.1078 years and the
    modified duration 7.7217 years to four decimals: exactly so in exact
    arithmetic, and within 1e-9 of 1000 and the same four decimals in
    binary64. *)
Theorem par_bond_scenario :
  (let m := calculate_bond_metrics par_bond in
   price m = 1000 /\
   810775 / 100000 <= macaulay_duration m < 810785 / 100000 /\
   772165 / 100000 <= modified_duration m < 772175 / 100000) /\
  (let m := calculate_bond_metrics par_bond64 in
   within (price m) 999.999999999%float 1000.000000001%float = true /\
   within (macaulay_duration m) 8.10775%float 8.10785%float = true /\
   within (modified_duration m) 7.72165%float 7.72175%float = true).
Proof.
  split; [exact par_bond_exact_metrics | exact par_bond_binary64_metrics].
Qed.

(** The second documented scenario: ten payments, coupons of 30 and a last
    payment of 1030; the price is below the face value, in binary64 too. *)
Lemma discount_bond_scenario :
  payments discount_bond = 10%Z /\
  coupon_pmt_of discount_bond = 30 /\
  cash_flow 1000 (coupon_pmt_of discount_bond) 10 10 = 1030 /\
  within (price (calculate_bond_metrics discount_bond64))
         918.891%float 918.892%float = true.
Proof.
  repeat split.
  - unfold coupon_pmt_of, discount_bond.
    cbn [face_value coupon_rate frequency]. lra.
  - unfold cash_flow, coupon_pmt_of, discount_bond.
    cbn [face_value coupon_rate frequency Z.eqb Pos.eqb]. lra.
Qed.

(** ** Division safety *)

(** C6, in exact arithmetic: on the precondition domain the accumulated price
    is strictly positive and no division of the calculator has a zero
    divisor. *)
Theorem price_positive_divisors_nonzero (p : BondParams R) :
  preconditions p ->
  0 < acc_price (accumulate p) /\
  0 < price (calculate_bond_metrics p) /\
  Forall (fun d => d <> 0) (divisors p).
Proof.
  intros Hp.
  assert (Hacc : acc_price (accumulate p) = price_sum p)
    by now rewrite (accumulate_direct Hp).
  unfold divisors. cbv zeta. rewrite (price_field Hp), Hacc.
  pose proof (price_sum_pos Hp) as Hprice.
  pose proof (frequency_pos Hp) as Hf.
  pose proof (yield_factor_pos Hp) as Hy.
  pose proof (macaulay_divisor_pos Hp) as Hmac.
  pose proof (convexity_divisor_pos Hp) as Hconv.
  repeat split; try assumption.
  repeat (apply Forall_cons; [lra|]). apply Forall_nil.
Qed.

Lemma price_positive_divisors_nonzero_witness :
  preconditions zero_coupon_bond /\
  0 < price (calculate_bond_metrics zero_coupon_bond).
Proof.
  split; [exact zero_coupon_bond_ok|].
  exact (proj1 (proj2 (price_positive_divisors_nonzero zero_coupon_bond_ok))).
Defined.

(** ** The calculator in binary64 *)

(** The six statements below evaluate the compiled arithmetic on inputs of
    the precondition domain. *)

(** Counterexample to C2 in binary64: the coupon rate lies above the yield,
    and the computed price, 999.9999999999999, lies below the face value. *)
Lemma premium_priced_below_par :
  let p := thin_premium_bond64 in
  preconditions64 p = true /\
  PrimFloat.ltb (ytm p) (coupon_rate p) = true /\
  PrimFloat.ltb (face_value p) (price (calculate_bond_metrics p)) = false /\
  PrimFloat.ltb (price (calculate_bond_metrics p)) (face_value p) = true.
Proof. vm_compute. repeat split; reflexivity. Qed.

(** Counterexample to C3 in binary64: the second bond differs from the first
    only by a strictly larger yield, and both are priced at 1050. *)
Lemma price_flat_in_ytm :
  let p := flat_yield_bond64 in
  let q := faint_yield_bond64 in
  preconditions64 p = true /\ preconditions64 q = true /\
  PrimFloat.eqb (face_value p) (face_value q) = true /\
  PrimFloat.eqb (coupon_rate p) (coupon_rate q) = true /\
  periods p = periods q /\ frequency p = frequency q /\
  PrimFloat.ltb (ytm p) (ytm q) = true /\
  PrimFloat.ltb (price (calculate_bond_metrics q))
                (price (calculate_bond_metrics p)) = false /\
  PrimFloat.eqb (price (calculate_bond_metrics q))
                (price (calculate_bond_metrics p)) = true.
Proof. vm_compute. repeat split; reflexivity. Qed.

(** Counterexample to C4 in binary64: the Macaulay duration computed for a
    three-year zero-coupon bond is 3.0000000000000004, above its three
    years. *)
Lemma macaulay_duration_above_periods :
  let p := zero_coupon_bond64 in
  preconditions64 p = true /\
  PrimFloat.leb (macaulay_duration (calculate_bond_metrics p))
                (float_of_int (periods p)) = false.
Proof. vm_compute. repeat split; reflexivity. Qed.

(** Counterexample to C5 in binary64: for the same zero-coupon bond the
    Macaulay duration is the [double] next above 3, not 3. *)
Lemma zero_coupon_duration_inexact :
  let p := zero_coupon_bond64 in
  preconditions64 p = true /\
  PrimFloat.eqb (coupon_rate p) 0 = true /\
  PrimFloat.eqb (macaulay_duration (calculate_bond_metrics p))
                (float_of_int (periods p)) = false /\
  PrimFloat.eqb (macaulay_duration (calculate_bond_metrics p))
                (PrimFloat.next_up 3) = true.
Proof. vm_compute. repeat split; reflexivity. Qed.

(** Counterexample to C6 in binary64: the price of a bond inside the
    precondition domain can be 0; the divisor [price * frequency] is then 0
    and the durations, the convexity and DV01 are NaN. *)
Lemma price_underflows_to_zero :
  let p := underflow_bond64 in
  let m := calculate_bond_metrics p in
  preconditions64 p = true /\
  PrimFloat.ltb 0 (price m) = false /\
  PrimFloat.eqb (price m) 0 = true /\
  PrimFloat.eqb (PrimFloat.mul (price m) (float_of_int (frequency p))) 0
  = true /\
  PrimFloat.is_nan (macaulay_duration m) = true /\
  PrimFloat.is_nan (modified_duration m) = true /\
  PrimFloat.is_nan (convexity m) = true /\
  PrimFloat.is_nan (dv01 m) = true.
Proof. vm_compute. repeat split; reflexivity. Qed.

(** Counterexample to C10 in binary64: on that bond neither the convexity
    nor DV01 compares greater than 0. *)
Lemma convexity_dv01_not_positive :
  let m := calculate_bond_metrics underflow_bond64 in
  preconditions64 underflow_bond64 = true /\
  PrimFloat.ltb 0 (convexity m) = false /\
  PrimFloat.ltb 0 (dv01 m) = false.
Proof. vm_compute. repeat split; reflexivity. Qed.

(** ** The command line *)

Local Open Scope string_scope.
Local Open Scope Z_scope.

(** [parse_arguments] returns 1 with nothing written, or 0 with a message. *)
Lemma parse_arguments_result (libc : Libc) (argc : Z) (argv : list string)
    (params : BondParams float) :
  (exists params', parse_arguments libc argc argv params = (1, params', [])) \/
  (exists params' err,
     parse_arguments libc argc argv params = (0, params', err) /\ err <> []).
Proof.
  unfold parse_arguments.
  destruct (negb (argc =? 6));
    [right; do 2 eexists; split; [reflexivity | discriminate]|].
  repeat match goal with
         | |- context [if ?b then (0, ?p, ?e) else _] =>
             destruct b;
             [right; exists p, e; split; [reflexivity | discriminate]|]
         end.
  left. eexists. reflexivity.
Qed.

(** Every exit is one of the two codes; the calculator has run exactly when
    the exit code is [EXIT_SUCCESS], and a failure writes a message. *)
Lemma main_exit_code (libc : Libc) (argv : list string)
    (uninit : BondParams float) :
  let out := main libc argv uninit in
  (exit_code out = EXIT_SUCCESS /\ report out <> None /\ stderr out = []) \/
  (exit_code out = EXIT_FAILURE /\ report out = None /\ stderr out <> []).
Proof.
  cbv zeta. unfold main.
  destruct (parse_arguments_result libc (Z.of_nat (List.length argv)) argv
              uninit) as [[params' ->] | [params' [err [-> Herr]]]];
    cbn [Z.eqb exit_code report stderr].
  - left. repeat split. discriminate.
  - right. repeat split. exact Herr.
Qed.

(** C9 fails on the text [nan]: with a C library that reads the five texts
    as C99 prescribes, the command line
    [bond_pricer 1000 nan 0.05 10 1] passes validation although its coupon
    rate is not between 0 and 1; the process exits with [EXIT_SUCCESS]
    without an error message, and the calculator is run on a NaN coupon
    rate and returns a NaN price. *)
Theorem nan_coupon_rate_accepted (libc : Libc) (uninit : BondParams float) :
  strtod libc "1000" = whole_double 1000%float ->
  strtod libc "nan" = whole_double PrimFloat.nan ->
  strtod libc "0.05" = whole_double 0.05%float ->
  strtol libc "10" 10 = whole_long 10 ->
  strtol libc "1" 10 = whole_long 1 ->
  let out := main libc nan_command_line uninit in
  exit_code out = EXIT_SUCCESS /\
  stderr out = [] /\
  exists params metrics,
    report out = Some (params, metrics) /\
    PrimFloat.is_nan (coupon_rate params) = true /\
    preconditions64 params = false /\
    PrimFloat.is_nan (price metrics) = true.
Proof.
  intros Hfv Hnan Hytm Hper Hfreq. cbv zeta.
  unfold main, parse_arguments, nan_command_line.
  cbn [nth List.length]. rewrite Hfv, Hnan, Hytm, Hper, Hfreq.
  vm_compute. repeat split. do 2 eexists. repeat split.
Qed.

Lemma nan_coupon_rate_accepted_witness :
  let out := main sample_libc nan_command_line blank_params in
  exit_code out = EXIT_SUCCESS /\
  stderr out = [] /\
  exists params metrics,
    report out = Some (params, metrics) /\
    PrimFloat.is_nan (coupon_rate params) = true /\
    preconditions64 params = false /\
    PrimFloat.is_nan (price metrics) = true.
Proof.
  apply (@nan_coupon_rate_accepted sample_libc); reflexivity.
Defined.

(** The empty text is accepted too where zero is in range: [strtod] makes no
    conversion, returns zero and leaves [endptr] at the terminating NUL, so
    [bond_pricer 1000 '' 0.05 10 1] is run as a zero-coupon bond. *)
Lemma empty_coupon_rate_accepted (libc : Libc) (uninit : BondParams float) :
  strtod libc "1000" = whole_double 1000%float ->
  strtod libc EmptyString = no_double EmptyString ->
  strtod libc "0.05" = whole_double 0.05%float ->
  strtol libc "10" 10 = whole_long 10 ->
  strtol libc "1" 10 = whole_long 1 ->
  let out := main libc empty_command_line uninit in
  exit_code out = EXIT_SUCCESS /\
  exists params metrics,
    report out = Some (params, metrics) /\
    PrimFloat.eqb (coupon_rate params) 0 = true.
Proof.
  intros Hfv Hempty Hytm Hper Hfreq. cbv zeta.
  unfold main, parse_arguments, empty_command_line.
  cbn [nth List.length]. rewrite Hfv, Hempty, Hytm, Hper, Hfreq.
  vm_compute. repeat split. do 2 eexists. repeat split.
Qed.

(** ** What validation guarantees *)

Lemma parse_arguments_accepted (libc : Libc) (argc : Z) (argv : list string)
    (params p : BondParams float) (err : list string) :
  parse_arguments libc argc argv params = (1, p, err) ->
  let '(r1, r2, r3, r4, r5) := conversions libc argv in
  argc = 6 /\ err = [] /\
  p = {| face_value := d_value r1; coupon_rate := d_value r2;
         ytm := d_value r3; periods := l_value r4; frequency := l_value r5 |} /\
  passed_double r1 /\ passed_double r2 /\ passed_double r3 /\
  passed_long r4 /\ passed_long r5 /\
  PrimFloat.leb (d_value r1) 0 = false /\
  PrimFloat.ltb (d_value r2) 0 = false /\
  PrimFloat.ltb 1 (d_value r2) = false /\
  PrimFloat.ltb (d_value r3) 0 = false /\
  1 <= l_value r4 <= 100 /\
  frequency_ok (l_value r5) = true.
Proof.
  unfold parse_arguments, conversions, passed_double, passed_long.
  destruct (argc =? 6) eqn:Hargc; cbn [negb]; [|discriminate].
  cbn [face_value coupon_rate ytm set_face_value set_coupon_rate set_ytm].
  set (r1 := strtod libc (nth 1%nat argv EmptyString)).
  set (r2 := strtod libc (nth 2%nat argv EmptyString)).
  set (r3 := strtod libc (nth 3%nat argv EmptyString)).
  set (r4 := strtol libc (nth 4%nat argv EmptyString) 10).
  set (r5 := strtol libc (nth 5%nat argv EmptyString) 10).
  destruct (_ || _ || PrimFloat.leb (d_value r1) 0) eqn:H1; [discriminate|].
  destruct (_ || _ || _ || PrimFloat.ltb 1 (d_value r2)) eqn:H2;
    [discriminate|].
  destruct (_ || _ || PrimFloat.ltb (d_value r3) 0) eqn:H3; [discriminate|].
  destruct (_ || _ || _ || (l_value r4 >? 100)) eqn:H4; [discriminate|].
  destruct (_ || _ || _ && _) eqn:H5; [discriminate|].
  intros Hret. injection Hret as <- <-.
  repeat (apply orb_false_elim in H1 as [H1 ?]).
  repeat (apply orb_false_elim in H2 as [H2 ?]).
  repeat (apply orb_false_elim in H3 as [H3 ?]).
  repeat (apply orb_false_elim in H4 as [H4 ?]).
  repeat (apply orb_false_elim in H5 as [H5 ?]).
  apply negb_false_iff in H1, H2, H3, H4, H5.
  assert (Hper : 1 <= l_value r4 <= 100) by lia.
  assert (Hfreq : frequency_ok (l_value r5) = true).
  { unfold frequency_ok.
    destruct (l_value r5 =? 1), (l_value r5 =? 2), (l_value r5 =? 4),
      (l_value r5 =? 12); cbn in *; congruence. }
  assert (Hint4 : int_of_long (l_value r4) = l_value r4)
    by (apply int_wrap_small; unfold INT_MIN, INT_MAX; lia).
  assert (Hint5 : int_of_long (l_value r5) = l_value r5).
  { apply int_wrap_small. unfold frequency_ok in Hfreq.
    unfold INT_MIN, INT_MAX. lia. }
  unfold set_frequency, set_periods.
  cbn [face_value coupon_rate ytm periods frequency].
  rewrite Hint4, Hint5.
  repeat split; try assumption; try lia.
Qed.

(** *** Comparisons of [double]s that are not NaN *)

Lemma SFcompare_antisym (f1 f2 : spec_float) (c : comparison) :
  SFcompare f1 f2 = Some c -> SFcompare f2 f1 = Some (CompOpp c).
Proof.
  destruct f1 as [s1|s1| |s1 m1 e1], f2 as [s2|s2| |s2 m2 e2];
    cbn [SFcompare]; try discriminate;
    intros Hc; injection Hc as <-;
    try (destruct s1; reflexivity);
    try (destruct s2; reflexivity);
    try (destruct s1, s2; reflexivity).
  f_equal. destruct s1, s2; try reflexivity;
    rewrite (Z.compare_antisym e1 e2);
    destruct (e1 ?= e2); cbn [CompOpp]; try reflexivity;
    rewrite (Pos.compare_cont_antisym m1 m2 Eq); cbn [CompOpp];
    now rewrite ?CompOpp_involutive.
Qed.

Lemma SFcompare_defined (f1 f2 : spec_float) :
  f1 <> S754_nan -> f2 <> S754_nan -> exists c, SFcompare f1 f2 = Some c.
Proof.
  destruct f1, f2; cbn [SFcompare]; intros H1 H2;
    try congruence; eexists; reflexivity.
Qed.

Lemma not_nan_spec (x : float) :
  PrimFloat.is_nan x = false -> Prim2SF x <> S754_nan.
Proof.
  unfold PrimFloat.is_nan. rewrite FloatAxioms.eqb_spec. intros Hnan Hsf.
  rewrite Hsf in Hnan. discriminate.
Qed.

(** Away from NaN, [x <= y] is the negation of [y < x]. *)
Lemma leb_negb_ltb (x y : float) :
  PrimFloat.is_nan x = false -> PrimFloat.is_nan y = false ->
  PrimFloat.leb x y = negb (PrimFloat.ltb y x).
Proof.
  intros Hx Hy. rewrite FloatAxioms.leb_spec, FloatAxioms.ltb_spec. unfold SFleb, SFltb.
  destruct (SFcompare_defined (not_nan_spec _ Hx) (not_nan_spec _ Hy))
    as [c Hc].
  rewrite Hc, (SFcompare_antisym _ _ Hc). now destruct c.
Qed.

(** Whatever the C library returns, an accepted command line whose three
    [double]s are not NaN lies in the precondition domain, and the calculator
    is run on exactly the converted values. *)
Lemma accepted_in_domain_unless_nan (libc : Libc) (argc : Z)
    (argv : list string) (params p : BondParams float) (err : list string) :
  parse_arguments libc argc argv params = (1, p, err) ->
  PrimFloat.is_nan (face_value p) = false ->
  PrimFloat.is_nan (coupon_rate p) = false ->
  PrimFloat.is_nan (ytm p) = false ->
  preconditions64 p = true.
Proof.
  intros Hparse. apply parse_arguments_accepted in Hparse.
  unfold conversions in Hparse.
  destruct Hparse as (_ & _ & -> & _ & _ & _ & _ & _ & Hfv & Hc0 & Hc1 & Hy
                      & Hper & Hfreq).
  cbn [face_value coupon_rate ytm periods frequency]. intros Nfv Ncr Nytm.
  unfold preconditions64.
  cbn [face_value coupon_rate ytm periods frequency].
  assert (Nzero : PrimFloat.is_nan 0 = false) by reflexivity.
  assert (Nunit : PrimFloat.is_nan 1 = false) by reflexivity.
  rewrite (leb_negb_ltb _ _ Nfv Nzero) in Hfv.
  apply negb_false_iff in Hfv. rewrite Hfv.
  rewrite (leb_negb_ltb _ _ Nzero Ncr), Hc0.
  rewrite (leb_negb_ltb _ _ Ncr Nunit), Hc1.
  rewrite (leb_negb_ltb _ _ Nzero Nytm), Hy.
  rewrite Hfreq. cbn [negb andb].
  replace (1 <=? _) with true by (symmetry; apply Z.leb_le; lia).
  replace (_ <=? 100) with true by (symmetry; apply Z.leb_le; lia).
  reflexivity.
Qed.

(** *** Acceptance, exactly *)

(** Conversely, a command line of six entries whose conversions pass every
    test the code makes is accepted, and [*params] holds the converted
    values. *)
Lemma parse_arguments_accepts (libc : Libc) (argv : list string)
    (params : BondParams float) :
  let '(r1, r2, r3, r4, r5) := conversions libc argv in
  passed_double r1 -> passed_double r2 -> passed_double r3 ->
  passed_long r4 -> passed_long r5 ->
  PrimFloat.leb (d_value r1) 0 = false ->
  PrimFloat.ltb (d_value r2) 0 = false ->
  PrimFloat.ltb 1 (d_value r2) = false ->
  PrimFloat.ltb (d_value r3) 0 = false ->
  1 <= l_value r4 <= 100 ->
  frequency_ok (l_value r5) = true ->
  parse_arguments libc 6 argv params
  = (1,
     {| face_value := d_value r1; coupon_rate := d_value r2;
        ytm := d_value r3; periods := l_value r4; frequency := l_value r5 |},
     []).
Proof.
  unfold conversions, passed_double, passed_long, parse_arguments.
  intros [E1 R1] [E2 R2] [E3 R3] [E4 R4] [E5 R5] Hfv Hc0 Hc1 Hy Hper Hfreq.
  cbn [Z.eqb Pos.eqb negb].
  cbn [face_value coupon_rate ytm set_face_value set_coupon_rate set_ytm].
  rewrite E1, R1, Hfv, E2, R2, Hc0, Hc1, E3, R3, Hy, E4, R4, E5, R5.
  cbn [Z.eqb negb orb].
  set (r4 := strtol libc (nth 4%nat argv EmptyString) 10) in *.
  set (r5 := strtol libc (nth 5%nat argv EmptyString) 10) in *.
  replace (l_value r4 <=? 0) with false by (symmetry; apply Z.leb_gt; lia).
  replace (l_value r4 >? 100) with false
    by (symmetry; rewrite Z.gtb_ltb; apply Z.ltb_ge; lia).
  assert (Hnone : negb (l_value r5 =? 1) && negb (l_value r5 =? 2)
                  && negb (l_value r5 =? 4) && negb (l_value r5 =? 12)
                  = false).
  { unfold frequency_ok in Hfreq.
    destruct (l_value r5 =? 1), (l_value r5 =? 2), (l_value r5 =? 4),
      (l_value r5 =? 12); cbn in *; congruence. }
  rewrite Hnone. cbn [orb].
  unfold set_frequency, set_periods.
  cbn [face_value coupon_rate ytm periods frequency].
  assert (Hint4 : int_of_long (l_value r4) = l_value r4)
    by (apply int_wrap_small; unfold INT_MIN, INT_MAX; lia).
  assert (Hint5 : int_of_long (l_value r5) = l_value r5).
  { apply int_wrap_small. unfold frequency_ok in Hfreq.
    unfold INT_MIN, INT_MAX. lia. }
  now rewrite Hint4, Hint5.
Qed.

(** The documented scenario through [main]: the command line is accepted and
    the report holds the metrics of the par bond. *)
Lemma main_on_valid_command_line :
  main sample_libc valid_command_line blank_params
  = {| exit_code := EXIT_SUCCESS; stderr := [];
       report := Some (par_bond64, calculate_bond_metrics par_bond64) |}.
Proof. vm_compute. reflexivity. Qed.

(** A wrong number of arguments prints the usage text and fails. *)
Lemma main_usage (libc : Libc) (uninit : BondParams float) :
  main libc ["bond_pricer"; "1000"] uninit
  = {| exit_code := EXIT_FAILURE; stderr := usage "bond_pricer";
       report := None |}.
Proof. reflexivity. Qed.

(** A text the library does not convert to its end is rejected, with the
    message of its argument. *)
Lemma main_rejects_unconverted_text :
  main sample_libc ["bond_pricer"; "1000"; "5pc"; "0.05"; "10"; "1"]
       blank_params
  = {| exit_code := EXIT_FAILURE; stderr := [err_coupon_rate];
       report := None |}.
Proof. vm_compute. reflexivity. Qed.

(** * Part III: further properties of the code *)

Local Open Scope R_scope.

(** ** The price in closed form *)

Lemma sum_to_const (c : R) (k : nat) :
  sum_to (fun _ => c) k = IZR (Z.of_nat k) * c.
Proof.
  induction k as [|k IH]; cbn [sum_to]; [cbn; ring|].
  rewrite IH, Nat2Z.inj_succ, succ_IZR. ring.
Qed.

Lemma annuity_le (d : R) (k : nat) :
  0 <= d <= 1 -> annuity d k <= IZR (Z.of_nat k).
Proof.
  intros Hd. unfold annuity.
  replace (IZR (Z.of_nat k)) with (sum_to (fun _ => 1) k)
    by (rewrite sum_to_const; ring).
  apply sum_to_le. intros t _.
  rewrite <- (pow1 (Z.to_nat t)). apply pow_incr. exact Hd.
Qed.

Lemma coupon_total (p : BondParams R) :
  preconditions p ->
  coupon_pmt_of p * IZR (payments p)
  = face_value p * (coupon_rate p * IZR (periods p)).
Proof.
  intros Hp. pose proof (frequency_pos Hp).
  rewrite payments_IZR. unfold coupon_pmt_of. field. lra.
Qed.

(** X1.  In exact arithmetic, for a positive yield the price is the closed
    form of bond pricing: the coupon times [(1 - d^n) / y] plus the face
    value times [d^n], with [y = ytm / frequency], [d = 1 / (1 + y)] and
    [n = periods * frequency]. *)
Theorem price_closed_form (p : BondParams R) :
  preconditions p ->
  0 < ytm p ->
  let y := ytm p / IZR (frequency p) in
  let d := 1 / (1 + y) in
  let n := Z.to_nat (periods p * frequency p) in
  price (calculate_bond_metrics p)
  = face_value p * (coupon_rate p / IZR (frequency p)) * ((1 - d ^ n) / y)
    + face_value p * d ^ n.
Proof.
  intros Hp Hytm. cbv zeta.
  rewrite (price_field Hp), (price_sum_closed Hp).
  pose proof (frequency_pos Hp) as Hf.
  assert (Hy : 0 < period_yield p).
  { unfold period_yield. apply Rdiv_lt_0_compat; lra. }
  assert (Hgeo := @annuity_yield (period_yield p) (Z.to_nat (payments p))).
  fold (discount_of p) in Hgeo.
  assert (Hann : annuity (discount_of p) (Z.to_nat (payments p))
                 = (1 - discount_of p ^ Z.to_nat (payments p))
                   / period_yield p).
  { rewrite <- Hgeo by lra. field. lra. }
  rewrite Hann. reflexivity.
Qed.

Lemma price_closed_form_witness :
  price (calculate_bond_metrics discount_bond)
  = 1000 * (6 / 100 / 2) * ((1 - (1 / (1 + 8 / 100 / 2)) ^ 10) / (8 / 100 / 2))
    + 1000 * (1 / (1 + 8 / 100 / 2)) ^ 10.
Proof.
  apply (price_closed_form discount_bond_ok).
  cbn [ytm discount_bond]. lra.
Defined.

(** X2.  In exact arithmetic the price never exceeds the undiscounted total
    of the payments, [face_value * (1 + coupon_rate * periods)], and equals
    it when the yield is zero. *)
Theorem price_at_most_undiscounted (p : BondParams R) :
  preconditions p ->
  price (calculate_bond_metrics p)
  <= face_value p * (1 + coupon_rate p * IZR (periods p)) /\
  (ytm p = 0 ->
   price (calculate_bond_metrics p)
   = face_value p * (1 + coupon_rate p * IZR (periods p))).
Proof.
  intros Hp. rewrite (price_field Hp), (price_sum_closed Hp).
  pose proof (coupon_total Hp) as Htotal.
  pose proof (payments_range Hp) as Hn.
  pose proof (coupon_pmt_nonneg Hp) as Hc.
  pose proof (pre_face_value Hp) as Hfv.
  destruct (discount_range Hp) as [Hd0 Hd1].
  set (n := Z.to_nat (payments p)).
  assert (HnZ : IZR (Z.of_nat n) = IZR (payments p))
    by (unfold n; rewrite Z2Nat.id by lia; reflexivity).
  split.
  - assert (Ha : annuity (discount_of p) n <= IZR (payments p))
      by (rewrite <- HnZ; apply annuity_le; lra).
    assert (Hpow : discount_of p ^ n <= 1)
      by (rewrite <- (pow1 n); apply pow_incr; lra).
    nra.
  - intros Hzero.
    assert (Hone : discount_of p = 1).
    { unfold discount_of, period_yield. rewrite Hzero. unfold Rdiv.
      rewrite Rmult_0_l, Rplus_0_r, Rinv_1. ring. }
    rewrite Hone, pow1. unfold annuity.
    rewrite (sum_to_ext (fun t => 1 ^ Z.to_nat t) (fun _ => 1))
      by (intros; apply pow1).
    rewrite sum_to_const, HnZ. lra.
Qed.

Lemma zero_yield_bond_ok : preconditions zero_yield_bond.
Proof. unfold zero_yield_bond. sample_preconditions. Qed.

Lemma price_at_most_undiscounted_witness :
  price (calculate_bond_metrics discount_bond) <= 1000 * (1 + 6 / 100 * 5) /\
  price (calculate_bond_metrics zero_yield_bond) = 1000 * (1 + 6 / 100 * 5).
Proof.
  split.
  - exact (proj1 (price_at_most_undiscounted discount_bond_ok)).
  - exact (proj2 (price_at_most_undiscounted zero_yield_bond_ok) eq_refl).
Defined.

(** ** Face value and coupon rate *)

Lemma scale_face_value_ok (k : R) (p : BondParams R) :
  0 < k -> preconditions p -> preconditions (scale_face_value k p).
Proof.
  intros Hk [Hfv Hcr Hy Hper Hfreq].
  constructor; cbn [scale_face_value face_value coupon_rate ytm periods
                    frequency]; try assumption.
  now apply Rmult_lt_0_compat.
Qed.

Lemma present_value_scaled (k fv coupon_pmt discount : R) (n t : Z) :
  present_value (k * fv) (k * coupon_pmt) discount n t
  = k * present_value fv coupon_pmt discount n t.
Proof. unfold present_value, cash_flow. destruct (t =? n)%Z; ring. Qed.

Lemma sums_scaled (k : R) (p : BondParams R) :
  price_sum (scale_face_value k p) = k * price_sum p /\
  weighted_sum (scale_face_value k p) = k * weighted_sum p /\
  convexity_sum (scale_face_value k p) = k * convexity_sum p.
Proof.
  assert (Hcp : coupon_pmt_of (scale_face_value k p) = k * coupon_pmt_of p)
    by (unfold coupon_pmt_of, scale_face_value;
        cbn [face_value coupon_rate frequency]; ring).
  unfold price_sum, weighted_sum, convexity_sum, direct_price,
    direct_weighted_pv, direct_convexity_sum.
  rewrite Hcp.
  change (discount_of (scale_face_value k p)) with (discount_of p).
  change (payments (scale_face_value k p)) with (payments p).
  change (face_value (scale_face_value k p)) with (k * face_value p).
  repeat split; rewrite <- sum_to_scale; apply sum_to_ext; intros t _;
    rewrite present_value_scaled; ring.
Qed.

(** X3.  In exact arithmetic the metrics are homogeneous in the face value:
    multiplying it by [k > 0] multiplies the price and DV01 by [k] and
    leaves both durations and the convexity unchanged. *)
Theorem face_value_scaling (k : R) (p : BondParams R) :
  preconditions p ->
  0 < k ->
  let m := calculate_bond_metrics p in
  let m' := calculate_bond_metrics (scale_face_value k p) in
  price m' = k * price m /\
  dv01 m' = k * dv01 m /\
  macaulay_duration m' = macaulay_duration m /\
  modified_duration m' = modified_duration m /\
  convexity m' = convexity m.
Proof.
  intros Hp Hk. cbv zeta.
  rewrite (calculate_exact Hp), (calculate_exact (scale_face_value_ok Hk Hp)).
  cbv zeta.
  cbn [price dv01 macaulay_duration modified_duration convexity].
  destruct (sums_scaled k p) as (-> & -> & ->).
  change (frequency (scale_face_value k p)) with (frequency p).
  change (ytm (scale_face_value k p)) with (ytm p).
  pose proof (price_sum_pos Hp) as Hprice.
  pose proof (frequency_pos Hp) as Hf.
  pose proof (yield_factor_pos Hp) as Hy.
  pose proof (pre_ytm Hp) as Hytm.
  repeat split; field; repeat split; lra.
Qed.

Lemma face_value_scaling_witness :
  price (calculate_bond_metrics (scale_face_value 3 par_bond))
  = 3 * price (calculate_bond_metrics par_bond).
Proof.
  assert (Hk : 0 < 3) by lra.
  exact (proj1 (face_value_scaling par_bond_ok Hk)).
Defined.

Lemma with_coupon_rate_ok (c : R) (p : BondParams R) :
  0 <= c <= 1 -> preconditions p -> preconditions (with_coupon_rate c p).
Proof.
  intros Hc [Hfv Hcr Hy Hper Hfreq].
  constructor; cbn [with_coupon_rate face_value coupon_rate ytm periods
                    frequency]; assumption.
Qed.

(** X4.  In exact arithmetic, with face value, yield, years and frequency
    fixed, the price is strictly increasing in the coupon rate. *)
Theorem price_increasing_in_coupon_rate (c : R) (p : BondParams R) :
  preconditions p ->
  coupon_rate p < c <= 1 ->
  price (calculate_bond_metrics p)
  < price (calculate_bond_metrics (with_coupon_rate c p)).
Proof.
  intros Hp Hc.
  assert (Hq : preconditions (with_coupon_rate c p)).
  { apply with_coupon_rate_ok; [|exact Hp].
    pose proof (pre_coupon_rate Hp). lra. }
  rewrite (price_field Hp), (price_field Hq).
  rewrite (price_sum_closed Hp), (price_sum_closed Hq).
  change (discount_of (with_coupon_rate c p)) with (discount_of p).
  change (payments (with_coupon_rate c p)) with (payments p).
  change (face_value (with_coupon_rate c p)) with (face_value p).
  pose proof (annuity_of_pos Hp) as Ha.
  pose proof (pre_face_value Hp) as Hfv.
  pose proof (frequency_pos Hp) as Hf.
  assert (Hcp : coupon_pmt_of p < coupon_pmt_of (with_coupon_rate c p)).
  { unfold coupon_pmt_of, with_coupon_rate.
    cbn [face_value coupon_rate frequency]. unfold Rdiv.
    apply Rmult_lt_compat_l; [exact Hfv|].
    apply Rmult_lt_compat_r; [apply Rinv_0_lt_compat; lra | lra]. }
  nra.
Qed.

Lemma price_increasing_in_coupon_rate_witness :
  price (calculate_bond_metrics discount_bond)
  < price (calculate_bond_metrics (with_coupon_rate (7 / 100) discount_bond)).
Proof.
  apply (price_increasing_in_coupon_rate discount_bond_ok).
  cbn [coupon_rate discount_bond]. lra.
Defined.

(** ** Durations and convexity *)

Lemma modified_field (p : BondParams R) :
  preconditions p ->
  modified_duration (calculate_bond_metrics p)
  = macaulay_duration (calculate_bond_metrics p)
    / (1 + ytm p / IZR (frequency p)).
Proof. intros Hp. now rewrite (calculate_exact Hp). Qed.

(** X5.  In exact arithmetic the Macaulay duration is at least one payment
    period, [1 / frequency] years: no cash flow arrives before the first
    date. *)
Theorem macaulay_duration_at_least_one_period (p : BondParams R) :
  preconditions p ->
  1 / IZR (frequency p) <= macaulay_duration (calculate_bond_metrics p).
Proof.
  intros Hp. rewrite (macaulay_field Hp).
  pose proof (weighted_sum_ge Hp) as Hge.
  pose proof (price_sum_pos Hp) as Hprice.
  pose proof (frequency_pos Hp) as Hf.
  pose proof (macaulay_divisor_pos Hp) as Hdiv.
  apply (Rmult_le_reg_r (price_sum p * IZR (frequency p))); [exact Hdiv|].
  unfold Rdiv. rewrite (Rmult_assoc (weighted_sum p)), Rinv_l by lra.
  replace (1 * / IZR (frequency p) * (price_sum p * IZR (frequency p)))
    with (price_sum p) by (field; lra).
  lra.
Qed.

Lemma macaulay_duration_at_least_one_period_witness :
  1 / 2 <= macaulay_duration (calculate_bond_metrics discount_bond).
Proof.
  exact (macaulay_duration_at_least_one_period discount_bond_ok).
Defined.

(** X6.  In exact arithmetic the modified duration is positive and never
    exceeds the Macaulay duration; the two are equal at a zero yield and the
    modified duration is strictly smaller at a positive yield. *)
Theorem modified_duration_below_macaulay (p : BondParams R) :
  preconditions p ->
  let m := calculate_bond_metrics p in
  0 < modified_duration m <= macaulay_duration m /\
  (ytm p = 0 -> modified_duration m = macaulay_duration m) /\
  (0 < ytm p -> modified_duration m < macaulay_duration m).
Proof.
  intros Hp. cbv zeta. rewrite (modified_field Hp), (macaulay_field Hp).
  destruct (macaulay_bounds Hp) as [Hmac _].
  pose proof (frequency_pos Hp) as Hf.
  pose proof (pre_ytm Hp) as Hytm.
  set (mac := weighted_sum p / (price_sum p * IZR (frequency p))) in *.
  assert (Hy : 0 <= ytm p / IZR (frequency p))
    by (apply Rmult_le_pos; [lra | apply Rlt_le, Rinv_0_lt_compat; lra]).
  set (y := ytm p / IZR (frequency p)) in *.
  assert (Hinv : 0 < / (1 + y)) by (apply Rinv_0_lt_compat; lra).
  assert (Hone : (1 + y) * / (1 + y) = 1) by (apply Rinv_r; lra).
  unfold Rdiv. repeat split.
  - now apply Rmult_lt_0_compat.
  - nra.
  - intros Hzero. assert (y = 0) as ->
      by (unfold y; rewrite Hzero; unfold Rdiv; ring).
    rewrite Rplus_0_r, Rinv_1. ring.
  - intros Hpos.
    assert (0 < y) by (unfold y; apply Rdiv_lt_0_compat; lra).
    nra.
Qed.

Lemma modified_duration_below_macaulay_witness :
  modified_duration (calculate_bond_metrics discount_bond)
  < macaulay_duration (calculate_bond_metrics discount_bond) /\
  modified_duration (calculate_bond_metrics zero_yield_bond)
  = macaulay_duration (calculate_bond_metrics zero_yield_bond).
Proof.
  split.
  - apply (proj2 (proj2 (modified_duration_below_macaulay discount_bond_ok))).
    cbn [ytm discount_bond]. lra.
  - exact (proj1 (proj2 (modified_duration_below_macaulay zero_yield_bond_ok))
             eq_refl).
Defined.

Lemma convexity_sum_le (p : BondParams R) :
  preconditions p ->
  convexity_sum p <= IZR (payments p * (payments p + 1)) * price_sum p.
Proof.
  intros Hp.
  unfold convexity_sum, price_sum, direct_convexity_sum, direct_price.
  rewrite <- sum_to_scale. apply sum_to_le. intros t Ht.
  pose proof (payments_range Hp).
  apply Rmult_le_compat_r; [now apply present_value_nonneg|].
  apply IZR_le. nia.
Qed.

(** X7.  In exact arithmetic the convexity is at most
    [n * (n + 1) / frequency^2] with [n = periods * frequency], the convexity
    weight of the last payment date. *)
Theorem convexity_bound (p : BondParams R) :
  preconditions p ->
  let n := (periods p * frequency p)%Z in
  convexity (calculate_bond_metrics p)
  <= IZR (n * (n + 1)) / (IZR (frequency p) * IZR (frequency p)).
Proof.
  intros Hp. cbv zeta. rewrite (calculate_exact Hp). cbv zeta.
  cbn [convexity]. fold (payments p).
  pose proof (convexity_sum_le Hp) as Hle.
  pose proof (convexity_sum_ge Hp) as Hge.
  pose proof (price_sum_pos Hp) as Hprice.
  pose proof (frequency_pos Hp) as Hf.
  pose proof (period_yield_nonneg Hp) as Hy. unfold period_yield in Hy.
  pose proof (convexity_divisor_pos Hp) as Hdiv.
  set (K := IZR (payments p * (payments p + 1))) in *.
  set (f := IZR (frequency p)) in *.
  set (y := ytm p / f) in *.
  set (P := price_sum p) in *.
  assert (Hff : 0 < f * f) by nra.
  assert (Hsq : 1 <= (1 + y) * (1 + y)) by nra.
  assert (HPff : 0 < P * (f * f)) by (apply Rmult_lt_0_compat; lra).
  assert (Hsmall : P * (f * f) <= P * f * f * (1 + y) * (1 + y)) by nra.
  apply Rle_trans with (convexity_sum p / (P * (f * f))).
  - unfold Rdiv. apply Rmult_le_compat_l; [lra|].
    apply Rinv_le_contravar; lra.
  - apply (Rmult_le_reg_r (P * (f * f))); [exact HPff|].
    unfold Rdiv. rewrite (Rmult_assoc (convexity_sum p)), Rinv_l by lra.
    replace (K * / (f * f) * (P * (f * f))) with (K * P) by (field; lra).
    lra.
Qed.

Lemma convexity_bound_witness :
  convexity (calculate_bond_metrics discount_bond) <= 110 / (2 * 2).
Proof. exact (convexity_bound discount_bond_ok). Defined.

(** ** The report *)

Lemma metrics_positive (p : BondParams R) :
  preconditions p ->
  let m := calculate_bond_metrics p in
  0 < price m /\ 0 < modified_duration m /\ 0 < convexity m.
Proof.
  intros Hp. cbv zeta. rewrite (calculate_exact Hp). cbv zeta.
  cbn [price modified_duration convexity].
  pose proof (price_sum_pos Hp) as Hprice.
  pose proof (convexity_sum_ge Hp) as Hconv.
  pose proof (convexity_divisor_pos Hp) as Hdiv.
  destruct (macaulay_bounds Hp) as [Hmac _].
  pose proof (yield_factor_pos Hp) as Hy.
  repeat split; try assumption; apply Rdiv_lt_0_compat; lra.
Qed.

(** X8.  In exact arithmetic the report calls the bond a premium exactly
    when the coupon rate is above the yield, a discount exactly when it is
    below, and par exactly when the two are equal. *)
Theorem report_trading_label (p : BondParams R) :
  preconditions p ->
  let r := print_results p (calculate_bond_metrics p) in
  (rep_trading r = "premium"%string <-> ytm p < coupon_rate p) /\
  (rep_trading r = "discount"%string <-> coupon_rate p < ytm p) /\
  (rep_trading r = "par"%string <-> coupon_rate p = ytm p).
Proof.
  intros Hp. cbv zeta. cbn [print_results rep_trading].
  unfold trading. cbn [dlt R_report]. rewrite (price_field Hp).
  destruct (spread_annuity_sign Hp) as [Hprem Hdisc].
  pose proof (price_minus_face Hp) as Hdiff.
  destruct (Rtotal_order (coupon_rate p) (ytm p)) as [Hlt | [Heq | Hgt]].
  - specialize (Hdisc Hlt).
    destruct (Rlt_dec (face_value p) (price_sum p)) as [H|H]; [lra|].
    destruct (Rlt_dec (price_sum p) (face_value p)) as [H'|H']; [|lra].
    repeat split; intros; try discriminate; try lra; reflexivity.
  - assert (Hpar : price_sum p = face_value p).
    { rewrite Heq in Hdiff.
      replace ((ytm p - ytm p) / IZR (frequency p)) with 0 in Hdiff
        by (unfold Rdiv; ring).
      lra. }
    destruct (Rlt_dec (face_value p) (price_sum p)) as [H|H]; [lra|].
    destruct (Rlt_dec (price_sum p) (face_value p)) as [H'|H']; [lra|].
    repeat split; intros; try discriminate; try lra; reflexivity.
  - specialize (Hprem Hgt).
    destruct (Rlt_dec (face_value p) (price_sum p)) as [H|H]; [|lra].
    repeat split; intros; try discriminate; try lra; reflexivity.
Qed.

Lemma report_trading_label_witness :
  rep_trading (print_results premium_bond
                 (calculate_bond_metrics premium_bond)) = "premium"%string /\
  rep_trading (print_results discount_bond
                 (calculate_bond_metrics discount_bond)) = "discount"%string /\
  rep_trading (print_results par_bond
                 (calculate_bond_metrics par_bond)) = "par"%string.
Proof.
  repeat split.
  - apply (proj1 (report_trading_label premium_bond_ok)).
    cbn [ytm coupon_rate premium_bond]. lra.
  - apply (proj1 (proj2 (report_trading_label discount_bond_ok))).
    cbn [ytm coupon_rate discount_bond]. lra.
  - apply (proj2 (proj2 (report_trading_label par_bond_ok))). reflexivity.
Defined.

(** X9.  In exact arithmetic the two estimates the report prints for a 1%
    rise in yield have fixed signs and are multiples of the metrics: the
    duration estimate of the price change is [- 100 * dv01], a loss; the
    percentage change is minus the modified duration; the convexity
    adjustment is [convexity * price / 20000], a gain. *)
Theorem report_yield_change_estimates (p : BondParams R) :
  preconditions p ->
  let m := calculate_bond_metrics p in
  let r := print_results p m in
  rep_price_change r = - (100 * dv01 m) /\
  rep_price_change r < 0 /\
  rep_percent_change r = - modified_duration m /\
  rep_convexity_adjustment r = convexity m * price m / 20000 /\
  0 < rep_convexity_adjustment r.
Proof.
  intros Hp. cbv zeta.
  destruct (metrics_positive Hp) as (Hprice & Hmod & Hconv).
  assert (Hdv : dv01 (calculate_bond_metrics p)
                = modified_duration (calculate_bond_metrics p)
                  * price (calculate_bond_metrics p) / 10000)
    by reflexivity.
  cbn [print_results rep_price_change rep_percent_change
       rep_convexity_adjustment dneg lit_0_01 lit_0_5 R_report
       dmul of_int R_arith].
  rewrite Hdv.
  set (m := calculate_bond_metrics p) in *.
  assert (Hprod : 0 < modified_duration m * price m)
    by now apply Rmult_lt_0_compat.
  assert (Hcp : 0 < convexity m * price m)
    by now apply Rmult_lt_0_compat.
  repeat split; try field; lra.
Qed.

Lemma report_yield_change_estimates_witness :
  rep_price_change (print_results discount_bond
                      (calculate_bond_metrics discount_bond)) < 0 /\
  0 < rep_convexity_adjustment (print_results discount_bond
                                  (calculate_bond_metrics discount_bond)).
Proof.
  destruct (report_yield_change_estimates discount_bond_ok)
    as (_ & Hloss & _ & _ & Hgain).
  split; assumption.
Defined.

(** ** Integer arithmetic and termination on validated inputs *)

Local Open Scope Z_scope.

Lemma frequency_ok_cases (f : Z) :
  frequency_ok f = true -> f = 1 \/ f = 2 \/ f = 4 \/ f = 12.
Proof. unfold frequency_ok. lia. Qed.

Lemma validated_payments (years freq : Z) :
  1 <= years <= 100 ->
  frequency_ok freq = true ->
  int_mul years freq = years * freq /\ 1 <= years * freq <= 1200.
Proof.
  intros Hyears Hfreq. apply frequency_ok_cases in Hfreq.
  assert (Hrange : 1 <= years * freq <= 1200)
    by (destruct Hfreq as [-> | [-> | [-> | ->]]]; lia).
  split; [|exact Hrange].
  apply int_mul_small. unfold INT_MIN, INT_MAX. lia.
Qed.

(** X10.  For years in 1..100 and a frequency among 1, 2, 4 and 12, no [int]
    operation of the calculator or of the report wraps around: the payment
    count is the true product and lies in 1..1200, and at every date [t] of
    the loop [t + 1] and [t * (t + 1)] are the true values. *)
Theorem validated_int_arithmetic_exact (years freq : Z) :
  1 <= years <= 100 ->
  frequency_ok freq = true ->
  let n := int_mul years freq in
  n = years * freq /\ 1 <= n <= 1200 /\
  forall t, 1 <= t <= n ->
    int_add t 1 = t + 1 /\ int_mul t (int_add t 1) = t * (t + 1).
Proof.
  intros Hyears Hfreq. cbv zeta.
  destruct (@validated_payments years freq Hyears Hfreq) as [Hn Hrange].
  rewrite Hn. repeat split; try lia.
  - apply (@next_date_exact (years * freq)); unfold MAX_PAYMENTS; lia.
  - apply (@convexity_weight_exact (years * freq)); unfold MAX_PAYMENTS; lia.
Qed.

Lemma validated_int_arithmetic_exact_witness :
  int_mul 100 12 = 1200 /\
  int_mul 1200 (int_add 1200 1) = 1200 * 1201.
Proof.
  assert (Hyears : 1 <= 100 <= 100) by lia.
  assert (Hfreq : frequency_ok 12 = true) by reflexivity.
  destruct (@validated_int_arithmetic_exact 100 12 Hyears Hfreq)
    as (Hn & _ & Hdates).
  split; [exact Hn|].
  apply Hdates. rewrite Hn. lia.
Defined.

(** X11.  For such years and frequency the loop of the calculator, in either
    arithmetic and whatever the [double] inputs, leaves through its guard
    after [periods * frequency] iterations: running it with more fuel gives
    the same accumulators. *)
Theorem loop_terminates_on_validated_inputs
    (D : Type) (arith : DoubleArith D) (fv coupon_pmt discount : D)
    (years freq : Z) (s : Accumulators D) (extra : nat) :
  1 <= years <= 100 ->
  frequency_ok freq = true ->
  let n := int_mul years freq in
  loop (Z.to_nat n + extra) fv coupon_pmt discount n 1 s
  = loop (Z.to_nat n) fv coupon_pmt discount n 1 s.
Proof.
  intros Hyears Hfreq. cbv zeta.
  destruct (@validated_payments years freq Hyears Hfreq) as [Hn Hrange].
  apply loop_from_one_complete. unfold MAX_PAYMENTS. lia.
Qed.

Lemma loop_terminates_on_validated_inputs_witness :
  let s0 := {| acc_price := 0%float; acc_weighted_pv := 0%float;
               acc_convexity_sum := 0%float; acc_pv_factor := 0.5%float |} in
  loop (Z.to_nat (int_mul 100 12) + 7) 1000%float 0%float 0.5%float
       (int_mul 100 12) 1 s0
  = loop (Z.to_nat (int_mul 100 12)) 1000%float 0%float 0.5%float
         (int_mul 100 12) 1 s0.
Proof.
  assert (Hyears : 1 <= 100 <= 100) by lia.
  assert (Hfreq : frequency_ok 12 = true) by reflexivity.
  exact (@loop_terminates_on_validated_inputs float binary64_arith
           1000%float 0%float 0.5%float 100 12 _ 7%nat Hyears Hfreq).
Defined.

(** ** NaN in the report *)

Lemma SFcompare_refl (f : spec_float) :
  f <> S754_nan -> SFcompare f f = Some Eq.
Proof.
  destruct f as [s|s| |s m e]; cbn [SFcompare]; intros Hf;
    try congruence; try (destruct s; reflexivity).
  rewrite Z.compare_refl, Pos.compare_cont_refl. now destruct s.
Qed.

Lemma is_nan_spec (x : float) :
  PrimFloat.is_nan x = true -> Prim2SF x = S754_nan.
Proof.
  unfold PrimFloat.is_nan. rewrite FloatAxioms.eqb_spec. unfold SFeqb.
  intros Hnan. destruct (Prim2SF x) as [s|s| |s m e] eqn:Hx;
    try reflexivity; rewrite SFcompare_refl in Hnan by discriminate;
    discriminate.
Qed.

Lemma ltb_nan (x y : float) :
  PrimFloat.is_nan x = true \/ PrimFloat.is_nan y = true ->
  PrimFloat.ltb x y = false.
Proof.
  rewrite FloatAxioms.ltb_spec. unfold SFltb.
  intros [Hnan | Hnan]; apply is_nan_spec in Hnan; rewrite Hnan.
  - reflexivity.
  - now destruct (Prim2SF x).
Qed.

(** X12.  In binary64, whenever the price or the face value handed to
    [print_results] is a NaN, both comparisons fail and the report says the
    bond is trading at par. *)
Theorem report_nan_is_par (params : BondParams float)
    (metrics : BondMetrics float) :
  PrimFloat.is_nan (price metrics) = true \/
  PrimFloat.is_nan (face_value params) = true ->
  rep_trading (print_results params metrics) = "par"%string.
Proof.
  intros Hnan. cbn [print_results rep_trading]. unfold trading.
  cbn [dlt binary64_report].
  rewrite (ltb_nan (face_value params) (price metrics)) by tauto.
  rewrite (ltb_nan (price metrics) (face_value params)) by tauto.
  reflexivity.
Qed.

Lemma report_nan_is_par_witness :
  PrimFloat.is_nan (price (calculate_bond_metrics nan_coupon_bond64)) = true /\
  rep_trading (print_results nan_coupon_bond64
                 (calculate_bond_metrics nan_coupon_bond64)) = "par"%string.
Proof.
  assert (Hnan : PrimFloat.is_nan
                   (price (calculate_bond_metrics nan_coupon_bond64)) = true)
    by (vm_compute; reflexivity).
  split; [exact Hnan|].
  apply report_nan_is_par. left. exact Hnan.
Defined.

(** ** [main]: when it succeeds and what it then reports *)

Lemma main_of_accept (libc : Libc) (argv : list string)
    (uninit p : BondParams float) :
  parse_arguments libc (Z.of_nat (List.length argv)) argv uninit = (1, p, []) ->
  main libc argv uninit
  = {| exit_code := EXIT_SUCCESS; stderr := [];
       report := Some (p, calculate_bond_metrics p) |}.
Proof. intros Hparse. unfold main. rewrite Hparse. reflexivity. Qed.

Lemma main_success_parse (libc : Libc) (argv : list string)
    (uninit : BondParams float) :
  exit_code (main libc argv uninit) = EXIT_SUCCESS ->
  exists p,
    parse_arguments libc (Z.of_nat (List.length argv)) argv uninit = (1, p, []).
Proof.
  unfold main.
  destruct (parse_arguments_result libc (Z.of_nat (List.length argv)) argv
              uninit) as [[p Hp] | [p [err [Hp Herr]]]]; rewrite Hp;
    cbn [Z.eqb exit_code]; intros Hexit.
  - now exists p.
  - discriminate.
Qed.

Lemma accepted_tests (libc : Libc) (argv : list string)
    (uninit p : BondParams float) (err : list string) :
  parse_arguments libc (Z.of_nat (List.length argv)) argv uninit = (1, p, err) ->
  List.length argv = 6%nat /\ all_tests_pass libc argv /\
  p = converted_params libc argv.
Proof.
  intros Hparse. apply parse_arguments_accepted in Hparse.
  unfold all_tests_pass, converted_params. unfold conversions in *.
  destruct Hparse as (Hargc & _ & Hp & Hrest).
  split; [lia|]. split; [exact Hrest | exact Hp].
Qed.

(** X13.  Whatever the C library returns, [main] exits with [EXIT_SUCCESS]
    exactly when there are six entries on the command line and each of the
    five conversions leaves [errno] clear, consumes its whole text and
    passes the range test the code makes on it. *)
Theorem main_succeeds_iff (libc : Libc) (argv : list string)
    (uninit : BondParams float) :
  exit_code (main libc argv uninit) = EXIT_SUCCESS <->
  List.length argv = 6%nat /\ all_tests_pass libc argv.
Proof.
  split.
  - intros Hexit. destruct (@main_success_parse _ _ _ Hexit) as [p Hp].
    pose proof (@accepted_tests _ _ _ _ _ Hp). tauto.
  - intros [Hlen Hpass].
    pose proof (parse_arguments_accepts libc argv uninit) as Hacc.
    unfold all_tests_pass in Hpass. unfold conversions in *.
    destruct Hpass as (P1 & P2 & P3 & P4 & P5 & T1 & T2 & T3 & T4 & T5 & T6).
    specialize (Hacc P1 P2 P3 P4 P5 T1 T2 T3 T4 T5 T6).
    replace 6 with (Z.of_nat (List.length argv)) in Hacc
      by (rewrite Hlen; reflexivity).
    now rewrite (@main_of_accept _ _ _ _ Hacc).
Qed.

(** X14.  When [main] succeeds nothing is written to the error stream and
    the report is made from exactly the five converted values and the
    metrics the calculator returns for them; what [params] held before does
    not matter. *)
Theorem main_success_report (libc : Libc) (argv : list string)
    (uninit : BondParams float) :
  exit_code (main libc argv uninit) = EXIT_SUCCESS ->
  main libc argv uninit
  = {| exit_code := EXIT_SUCCESS; stderr := [];
       report := Some (converted_params libc argv,
                       calculate_bond_metrics (converted_params libc argv)) |}.
Proof.
  intros Hexit. destruct (@main_success_parse _ _ _ Hexit) as [p Hp].
  rewrite (@main_of_accept _ _ _ _ Hp).
  destruct (@accepted_tests _ _ _ _ _ Hp) as (_ & _ & ->). reflexivity.
Qed.

Lemma main_success_report_witness :
  main sample_libc valid_command_line blank_params
  = {| exit_code := EXIT_SUCCESS; stderr := [];
       report := Some (converted_params sample_libc valid_command_line,
                       calculate_bond_metrics
                         (converted_params sample_libc valid_command_line)) |}.
Proof.
  apply main_success_report. vm_compute. reflexivity.
Defined.

(** X15.  An accepted command line whose three [double]s are not NaN lies in
    the precondition domain of the calculator: face value positive, coupon
    rate in [0, 1], yield not negative, years in 1..100 and frequency among
    1, 2, 4 and 12. *)
Theorem main_success_in_domain_unless_nan (libc : Libc) (argv : list string)
    (uninit : BondParams float) :
  exit_code (main libc argv uninit) = EXIT_SUCCESS ->
  let p := converted_params libc argv in
  PrimFloat.is_nan (face_value p) = false ->
  PrimFloat.is_nan (coupon_rate p) = false ->
  PrimFloat.is_nan (ytm p) = false ->
  preconditions64 p = true.
Proof.
  intros Hexit. cbv zeta. destruct (@main_success_parse _ _ _ Hexit) as [p Hp].
  pose proof (@accepted_tests _ _ _ _ _ Hp) as (_ & _ & Heq). subst p.
  exact (@accepted_in_domain_unless_nan _ _ _ _ _ _ Hp).
Qed.

Lemma main_success_in_domain_unless_nan_witness :
  preconditions64 (converted_params sample_libc valid_command_line) = true.
Proof.
  apply (@main_success_in_domain_unless_nan sample_libc valid_command_line
           blank_params); vm_compute; reflexivity.
Defined.

(** ** [main]: how it fails *)

(** X16.  With any number of command-line entries other than six, [main]
    converts nothing: it writes the usage text, with the program name taken
    from [argv[0]], exits with [EXIT_FAILURE] and does not run the
    calculator. *)
Theorem main_usage_on_wrong_count (libc : Libc) (prog : string)
    (args : list string) (uninit : BondParams float) :
  List.length (prog :: args) <> 6%nat ->
  main libc (prog :: args) uninit
  = {| exit_code := EXIT_FAILURE; stderr := usage prog; report := None |}.
Proof.
  intros Hlen. unfold main, parse_arguments.
  replace (Z.of_nat (List.length (prog :: args)) =? 6) with false
    by (symmetry; apply Z.eqb_neq; lia).
  reflexivity.
Qed.

Lemma main_usage_on_wrong_count_witness :
  main sample_libc ["bond_pricer"; "1000"; "0.05"] blank_params
  = {| exit_code := EXIT_FAILURE; stderr := usage "bond_pricer";
       report := None |}.
Proof.
  apply main_usage_on_wrong_count. cbn [List.length]. lia.
Defined.

Lemma argument_errors_distinct : NoDup argument_errors.
Proof.
  unfold argument_errors.
  repeat (constructor; [cbn [In]; intuition discriminate|]).
  constructor.
Qed.

(** X17.  With six entries on the command line a failing run writes exactly
    one line, one of the five messages of the arguments, which are pairwise
    different, and does not run the calculator. *)
Theorem main_argument_error (libc : Libc) (argv : list string)
    (uninit : BondParams float) :
  List.length argv = 6%nat ->
  exit_code (main libc argv uninit) <> EXIT_SUCCESS ->
  NoDup argument_errors /\
  exists msg,
    In msg argument_errors /\
    stderr (main libc argv uninit) = [msg] /\
    report (main libc argv uninit) = None.
Proof.
  intros Hlen Hexit. split; [exact argument_errors_distinct|].
  revert Hexit. unfold main, parse_arguments. rewrite Hlen.
  cbn [Z.of_nat Pos.of_succ_nat Pos.succ Z.eqb Pos.eqb negb].
  unfold argument_errors.
  repeat match goal with
         | |- context [if ?b then (0, ?p, [?e]) else _] =>
             destruct b;
             [intros _; exists e; cbn [Z.eqb stderr report In];
              repeat split; tauto|]
         end.
  cbn [Z.eqb exit_code]. intros Hexit. now contradiction Hexit.
Qed.

Lemma main_argument_error_witness :
  exists msg,
    In msg argument_errors /\
    stderr (main sample_libc
              ["bond_pricer"; "1000"; "0.05"; "0.05"; "10"; "3"] blank_params)
    = [msg].
Proof.
  destruct (@main_argument_error sample_libc
              ["bond_pricer"; "1000"; "0.05"; "0.05"; "10"; "3"] blank_params)
    as (_ & msg & Hin & Hmsg & _).
  - reflexivity.
  - vm_compute. discriminate.
  - exists msg. split; assumption.
Defined.

(** ** Duration of a coupon bond *)

Local Open Scope R_scope.

Lemma sum_to_plus (f g : Z -> R) (k : nat) :
  sum_to (fun t => f t + g t) k = sum_to f k + sum_to g k.
Proof.
  induction k as [|k IH]; cbn [sum_to]; [ring|]. rewrite IH. ring.
Qed.

Lemma sum_to_first (f : Z -> R) (k : nat) :
  (0 < k)%nat ->
  (forall t, (1 <= t <= Z.of_nat k)%Z -> 0 <= f t) ->
  f 1%Z <= sum_to f k.
Proof.
  intros Hk Hf. induction k as [|k IH]; [lia|].
  destruct k as [|k].
  - cbn. lra.
  - cbn [sum_to] in *.
    assert (0 <= f (Z.of_nat (S (S k)))) by (apply Hf; lia).
    assert (f 1%Z <= sum_to f k + f (Z.of_nat (S k)))
      by (apply IH; [lia | intros; apply Hf; lia]).
    lra.
Qed.

(** What the payments before the last date take off the duration. *)
Lemma maturity_minus_weighted (p : BondParams R) :
  IZR (payments p) * price_sum p - weighted_sum p
  = sum_to (fun t => (IZR (payments p) - IZR t)
                     * present_value (face_value p) (coupon_pmt_of p)
                                     (discount_of p) (payments p) t)
           (Z.to_nat (payments p)).
Proof.
  unfold price_sum, weighted_sum, direct_price, direct_weighted_pv.
  set (pv := present_value (face_value p) (coupon_pmt_of p) (discount_of p)
                           (payments p)).
  rewrite (sum_to_ext (fun t => (IZR (payments p) - IZR t) * pv t)
                      (fun t => IZR (payments p) * pv t
                                + (-1) * (IZR t * pv t)))
    by (intros; ring).
  rewrite sum_to_plus, !sum_to_scale. ring.
Qed.

(** X18.  In exact arithmetic a bond that pays a positive coupon on more
    than one date has a Macaulay duration strictly below its years to
    maturity. *)
Theorem coupon_bond_duration_below_maturity (p : BondParams R) :
  preconditions p ->
  0 < coupon_rate p ->
  (1 < periods p * frequency p)%Z ->
  macaulay_duration (calculate_bond_metrics p) < IZR (periods p).
Proof.
  intros Hp Hcoupon Hmany. rewrite (macaulay_field Hp).
  pose proof (maturity_minus_weighted p) as Hgap.
  pose proof (macaulay_divisor_pos Hp) as Hdiv.
  pose proof (price_sum_pos Hp) as Hprice.
  pose proof (frequency_pos Hp) as Hf.
  pose proof (pre_face_value Hp) as Hfv.
  destruct (discount_range Hp) as [Hd _].
  fold (payments p) in Hmany.
  set (pv := present_value (face_value p) (coupon_pmt_of p) (discount_of p)
                           (payments p)) in *.
  assert (Hcp : 0 < coupon_pmt_of p).
  { unfold coupon_pmt_of. apply Rmult_lt_0_compat; [exact Hfv|].
    apply Rdiv_lt_0_compat; lra. }
  assert (Hfirst : 0 < (IZR (payments p) - IZR 1) * pv 1%Z).
  { apply Rmult_lt_0_compat.
    - assert (IZR 1 < IZR (payments p)) by (apply IZR_lt; lia). lra.
    - unfold pv, present_value, cash_flow.
      replace (1 =? payments p)%Z with false
        by (symmetry; apply Z.eqb_neq; lia).
      apply Rmult_lt_0_compat; [exact Hcp | now apply pow_lt]. }
  assert (Hsum : (IZR (payments p) - IZR 1) * pv 1%Z
                 <= IZR (payments p) * price_sum p - weighted_sum p).
  { rewrite Hgap.
    apply (sum_to_first
             (fun t => (IZR (payments p) - IZR t) * pv t)); [lia|].
    intros t Ht. apply Rmult_le_pos.
    - assert (IZR t <= IZR (payments p)) by (apply IZR_le; lia). lra.
    - now apply present_value_nonneg. }
  set (gap := (IZR (payments p) - IZR 1) * pv 1%Z) in *.
  rewrite payments_IZR in Hsum.
  apply (Rmult_lt_reg_r (price_sum p * IZR (frequency p))); [exact Hdiv|].
  unfold Rdiv. rewrite Rmult_assoc, Rinv_l by lra. lra.
Qed.

Lemma coupon_bond_duration_below_maturity_witness :
  macaulay_duration (calculate_bond_metrics discount_bond) < 5.
Proof.
  apply (coupon_bond_duration_below_maturity discount_bond_ok).
  - cbn [coupon_rate discount_bond]. lra.
  - cbn [periods frequency discount_bond]. lia.
Defined.

(** ** Direct exponentiation: exact arithmetic and binary64 *)

(** In exact arithmetic [fast_pow] is the power. *)
Lemma fast_pow_loop_exact (fuel : nat) (result current : R) (exp : Z) :
  (0 <= exp < 2 ^ Z.of_nat fuel)%Z ->
  fast_pow_loop fuel result current exp = result * current ^ Z.to_nat exp.
Proof.
  revert result current exp.
  induction fuel as [|fuel IH]; intros result current exp Hexp.
  - cbn [fast_pow_loop]. assert (exp = 0%Z) as -> by (cbn in Hexp; lia).
    cbn. ring.
  - cbn [fast_pow_loop dmul R_arith].
    rewrite Nat2Z.inj_succ, Z.pow_succ_r in Hexp by lia.
    destruct (exp >? 0)%Z eqn:Hpos.
    + apply Z.gtb_lt in Hpos.
      pose proof (Z.land_ones exp 1 ltac:(lia)) as Hland.
      change (Z.ones 1) with 1%Z in Hland. change (2 ^ 1)%Z with 2%Z in Hland.
      rewrite Hland, Z.shiftr_div_pow2 by lia. change (2 ^ 1)%Z with 2%Z.
      pose proof (Z.div_mod exp 2 ltac:(lia)) as Hdm.
      pose proof (Z.mod_pos_bound exp 2 ltac:(lia)) as Hmod.
      assert (Hq : (0 <= exp / 2 < 2 ^ Z.of_nat fuel)%Z)
        by (split; [apply Z.div_pos; lia | apply Z.div_lt_upper_bound; lia]).
      rewrite IH by exact Hq.
      set (q := (exp / 2)%Z) in *. set (r := (exp mod 2)%Z) in *.
      replace (Z.to_nat exp) with (Z.to_nat q * 2 + Z.to_nat r)%nat by lia.
      rewrite pow_add, Nat.mul_comm, pow_mult.
      replace (current ^ 2) with (current * current) by ring.
      destruct (r =? 0)%Z eqn:Hr.
      * apply Z.eqb_eq in Hr. rewrite Hr. cbn [Z.to_nat pow].
        generalize ((current * current) ^ Z.to_nat q). intros x. ring.
      * apply Z.eqb_neq in Hr. assert (r = 1%Z) as -> by lia.
        change (Z.to_nat 1) with 1%nat. rewrite pow_1.
        generalize ((current * current) ^ Z.to_nat q). intros x. ring.
    + assert (exp = 0%Z) as -> by lia. cbn. ring.
Qed.

Lemma fast_pow_exact (base : R) (exp : Z) :
  (0 <= exp <= INT_MAX)%Z -> fast_pow base exp = base ^ Z.to_nat exp.
Proof.
  intros Hexp. unfold fast_pow. rewrite fast_pow_loop_exact.
  - cbn [of_int R_arith]. ring.
  - unfold INT_MAX in Hexp. change (Z.of_nat 32) with 32%Z. lia.
Qed.

Lemma dsum_to_exact (f : Z -> R) (k : nat) : dsum_to f k = sum_to f k.
Proof.
  induction k as [|k IH]; cbn [dsum_to sum_to of_int dadd R_arith];
    [reflexivity|]. now rewrite IH.
Qed.

(** In exact arithmetic the sums by [fast_pow] are the direct sums. *)
Lemma direct_accumulate_exact (p : BondParams R) :
  preconditions p ->
  direct_accumulate p = (price_sum p, weighted_sum p, convexity_sum p).
Proof.
  intros Hp. unfold direct_accumulate. rewrite (payments_exact Hp).
  pose proof (payments_range Hp) as Hn. unfold MAX_PAYMENTS in Hn.
  rewrite !dsum_to_exact.
  unfold price_sum, weighted_sum, convexity_sum, direct_price,
    direct_weighted_pv, direct_convexity_sum.
  assert (Hpv : forall t, (1 <= t <= Z.of_nat (Z.to_nat (payments p)))%Z ->
            fresh_present_value (face_value p)
              (dmul (face_value p)
                    (ddiv (coupon_rate p) (of_int (frequency p))))
              (ddiv (of_int 1)
                    (dadd (of_int 1) (ddiv (ytm p) (of_int (frequency p)))))
              (payments p) t
            = present_value (face_value p) (coupon_pmt_of p) (discount_of p)
                            (payments p) t).
  { intros t Ht. unfold fresh_present_value, present_value, cash_flow.
    rewrite fast_pow_exact by (unfold INT_MAX; lia). reflexivity. }
  f_equal; [f_equal|]; apply sum_to_ext; intros t Ht.
  - now apply Hpv.
  - rewrite Hpv by exact Ht. reflexivity.
  - rewrite Hpv by exact Ht.
    rewrite (@convexity_weight_exact (payments p) t)
      by (unfold MAX_PAYMENTS; lia).
    reflexivity.
Qed.

(** Counterexample to C1 in binary64: two bonds of the precondition domain
    with coupon rate equal to yield whose price is not the face value within
    a relative tolerance of 1e-6.  For a face value of 1e308 the last cash
    flow [coupon_pmt + fv] overflows and the price is infinite; for the
    smallest positive face value every discounted cash flow rounds to zero
    and the price is 0. *)
Lemma par_price_outside_tolerance :
  let p := overflow_par_bond64 in
  let q := subnormal_par_bond64 in
  preconditions64 p = true /\
  PrimFloat.eqb (coupon_rate p) (ytm p) = true /\
  PrimFloat.eqb (price (calculate_bond_metrics p)) PrimFloat.infinity = true /\
  within_relative 1e-6 (face_value p) (price (calculate_bond_metrics p))
  = false /\
  preconditions64 q = true /\
  PrimFloat.eqb (coupon_rate q) (ytm q) = true /\
  PrimFloat.eqb (price (calculate_bond_metrics q)) 0 = true /\
  within_relative 1e-6 (face_value q) (price (calculate_bond_metrics q))
  = false.
Proof. vm_compute. repeat split; reflexivity. Qed.

(** Counterexample to C8 in binary64: on a bond of the precondition domain
    the running [pv_factor] stays at the smallest positive [double] (its
    product with a discount factor above 1/2 rounds back to itself), while
    [discount ^ t] computed afresh underflows to 0: the loop leaves price
    4.94e-321, weighted sum 5.93e-318 and convexity sum 7.12e-315 where the
    direct sums are 0, outside a relative tolerance of 1e-6 in each. *)
Lemma iterative_differs_from_direct :
  let p := stuck_discount_bond64 in
  let s := accumulate p in
  let '(direct_price64, direct_weighted64, direct_convexity64) :=
    direct_accumulate p in
  preconditions64 p = true /\
  PrimFloat.ltb 0 (acc_price s) = true /\
  PrimFloat.eqb direct_price64 0 = true /\
  PrimFloat.eqb direct_weighted64 0 = true /\
  PrimFloat.eqb direct_convexity64 0 = true /\
  within_relative 1e-6 (acc_price s) direct_price64 = false /\
  within_relative 1e-6 (acc_weighted_pv s) direct_weighted64 = false /\
  within_relative 1e-6 (acc_convexity_sum s) direct_convexity64 = false.
Proof. vm_compute. repeat split; reflexivity. Qed.
